(** * tlytics: the buffering-and-flush pipeline

    A shallow embedding of the Go sources of package tlytics:
    - [Event]       the Event struct,
    - [DB]          the DB struct: InsertEvents, GetEvents,
    - [Logger]      the Logger struct: Emit, flush, flushWorker, Stop, Flush,
    - [Client]      the Client struct: Emit, flush, sendEvents, flushWorker, Stop,
    - [Server]      the Server struct: handleEvents, handleBatch, handleView,
    - [Middleware]  GinMiddleware and TrackEvent.

    Conventions.
    - A Go [int] and a [time.Time] instant are integers in [Z]; the zero
      [time.Time] is [0].  The only arithmetic on ints is that of
      handleView, where the 64-bit wrap-around is written out ([GoInt]).
    - [encoding/json] and the SQL engine (go-sqlite3) are libraries the
      sources call; they are modelled by what the sources rely on
      (see [Json] and [DB.sql_limit_offset]).
    - Every critical section of the sources (a region between Lock and
      Unlock) is one atomic step; a call of [flush] is modelled as one step
      (drain under the logger mutex, then the sink call).
    - An event holds its data by value, except in [Middleware], where the
      sharing of one map between events matters and maps live in a heap. *)

From Stdlib Require Import ZArith List String Bool Lia Permutation Sorted.
Import ListNotations.

Set Implicit Arguments.
Set Warnings "-register-all".

(* ------------------------------------------------------------------ *)
(** ** Errors and loops that stop at the first error *)

(** The non-nil [error] values that the embedded functions can return. *)
Inductive err : Type :=
| MarshalError      (* json.Marshal: unsupported value *)
| UnmarshalError    (* json.Unmarshal: document does not fit the target *)
| ExecError         (* stmt.Exec reported an error *)
| TransportError    (* httpClient.Post failed *)
| StatusError (code : Z). (* server returned status: code *)

(** [for _, x := range xs { y, ok := f x; if !ok { return err } ... }] *)
Fixpoint mapM {A B : Type} (f : A -> option B) (xs : list A) : option (list B) :=
  match xs with
  | [] => Some []
  | x :: rest =>
      match f x with
      | None => None
      | Some y =>
          match mapM f rest with
          | None => None
          | Some ys => Some (y :: ys)
          end
      end
  end.

(* ------------------------------------------------------------------ *)
(** ** encoding/json, as far as the sources use it *)

Module Json.

(** The Go values that an [interface{}] of an event payload can hold. *)
Inductive value : Type :=
| Nil
| Bool (b : bool)
| Number (n : Z)
| Str (s : string)
| Slice (vs : list value)
| Map (kvs : list (string * value))
| Chan.  (* any value json.Marshal rejects: a channel, a func, a NaN *)

(** A JSON document (the text that is stored or sent), by its syntax. *)
Inductive doc : Type :=
| JNull
| JBool (b : bool)
| JNumber (n : Z)
| JString (s : string)
| JArray (ds : list doc)
| JObject (kds : list (string * doc)).

(** [map[string]interface{}]: [None] is the nil map. *)
Definition data : Type := option (list (string * value)).

(** [json.Marshal] of one value; [None] is its UnsupportedTypeError /
    UnsupportedValueError. *)
Fixpoint MarshalValue (v : value) : option doc :=
  match v with
  | Nil => Some JNull
  | Bool b => Some (JBool b)
  | Number n => Some (JNumber n)
  | Str s => Some (JString s)
  | Slice vs => option_map JArray (mapM MarshalValue vs)
  | Map kvs =>
      option_map JObject
        (mapM (fun kv => match kv with
                         | (k, v) => option_map (pair k) (MarshalValue v)
                         end) kvs)
  | Chan => None
  end.

(** [json.Unmarshal] into an [interface{}]: total on documents.  Numbers
    are kept as integers; that Go reads them back as float64 (and rounds
    numerals beyond 2^53) is not modelled. *)
Fixpoint decode (d : doc) : value :=
  match d with
  | JNull => Nil
  | JBool b => Bool b
  | JNumber n => Number n
  | JString s => Str s
  | JArray ds => Slice (map decode ds)
  | JObject kds => Map (map (fun kd => match kd with
                                       | (k, d) => (k, decode d)
                                       end) kds)
  end.

(** [json.Marshal(event.Data)]: a nil map is written as [null]. *)
Definition Marshal (m : data) : option doc :=
  match m with
  | None => Some JNull
  | Some kvs => MarshalValue (Map kvs)
  end.

(** [json.Unmarshal(text, &event.Data)] with [event.Data] a fresh nil map:
    [null] leaves it nil, an object fills it, anything else is an error. *)
Definition Unmarshal (d : doc) : option data :=
  match d with
  | JNull => Some None
  | JObject kds => match decode (JObject kds) with
                   | Map kvs => Some (Some kvs)
                   | _ => None
                   end
  | _ => None
  end.

End Json.

(* ------------------------------------------------------------------ *)
(** ** The Event struct *)

Record Event : Type := mkEvent {
  Key : string;
  Timestamp : Z;
  Data : Json.data
}.


(** [e.Timestamp.IsZero()] *)
Definition IsZero (t : Z) : bool := (t =? 0)%Z.

(* ------------------------------------------------------------------ *)
(** ** DB: the durable store *)

Module DB.

(** One row of table [tlytics (key TEXT, timestamp DATETIME, data TEXT)]. *)
Record Row : Type := mkRow {
  key : string;
  timestamp : Z;
  data : Json.doc
}.

(** The store behind the connection handle: the committed rows of the
    table in insertion order, and the driver's verdict on an INSERT
    ([true]: [stmt.Exec] reports an error for that row). *)
Record t : Type := mkDB {
  rows : list Row;
  exec_err : Row -> bool
}.

(** A freshly initialised store whose driver never fails. *)
Definition Init : t := {| rows := []; exec_err := fun _ => false |}.

(** The body of the [for _, event := range events] loop of InsertEvents,
    run inside the open transaction: [pending] are the rows written by
    the transaction so far.  [inl e] is [return err]. *)
Fixpoint insert_loop (db : t) (pending : list Row) (events : list Event)
  : err + list Row :=
  match events with
  | [] => inr pending
  | event :: rest =>
      match Json.Marshal (Data event) with
      | None => inl MarshalError
      | Some dataJSON =>
          let row := {| key := Key event;
                        timestamp := Timestamp event;
                        data := dataJSON |} in
          if exec_err db row then inl ExecError
          else insert_loop db (pending ++ [row]) rest
      end
  end.

(** [func (db *DB) InsertEvents(events []Event) error]: Begin, Prepare,
    the loop, then Commit; on an early return the deferred
    [tx.Rollback()] drops the transaction's rows.  Begin, Prepare and
    Commit themselves are taken to succeed. *)
Definition InsertEvents (db : t) (events : list Event) : option err * t :=
  match insert_loop db [] events with
  | inl e => (Some e, db)
  | inr pending =>
      (None, {| rows := rows db ++ pending; exec_err := exec_err db |})
  end.

(** [ORDER BY timestamp DESC]: insertion sort, newest first; rows with
    equal timestamps keep their insertion order. *)
Fixpoint insert_desc (r : Row) (l : list Row) : list Row :=
  match l with
  | [] => [r]
  | x :: tl =>
      if (timestamp x <=? timestamp r)%Z then r :: x :: tl
      else x :: insert_desc r tl
  end.

Definition order_by_timestamp_desc (l : list Row) : list Row :=
  fold_right insert_desc [] l.

(** [LIMIT ? OFFSET ?] as SQLite evaluates it: a negative OFFSET counts
    as zero, and a negative LIMIT is no upper bound. *)
Definition sql_limit_offset {A : Type} (limit offset : Z) (l : list A)
  : list A :=
  let skipped := skipn (Z.to_nat (Z.max 0 offset)) l in
  if (limit <? 0)%Z then skipped else firstn (Z.to_nat limit) skipped.

(** [rows.Scan] followed by [json.Unmarshal] of the data column. *)
Definition scan (r : Row) : option Event :=
  match Json.Unmarshal (data r) with
  | None => None
  | Some d => Some {| Key := key r; Timestamp := timestamp r; Data := d |}
  end.

(** [func (db *DB) GetEvents(limit, offset int) ([]Event, int, error)] *)
Definition GetEvents (db : t) (limit offset : Z)
  : list Event * Z * option err :=
  let totalCount := Z.of_nat (List.length (rows db)) in
  let result :=
    sql_limit_offset limit offset (order_by_timestamp_desc (rows db)) in
  match mapM scan result with
  | None => ([], 0%Z, Some UnmarshalError)
  | Some events => (events, totalCount, None)
  end.

(** *** Vocabulary for the statements about the store *)

(** The row that the loop of InsertEvents writes for an event, when its
    data serializes. *)
Definition row_of (e : Event) : option Row :=
  option_map (fun d => {| key := Key e; timestamp := Timestamp e; data := d |})
    (Json.Marshal (Data e)).

(** The event goes through one iteration of the loop without error. *)
Definition insert_ok (db : t) (e : Event) : bool :=
  match row_of e with
  | Some row => negb (exec_err db row)
  | None => false
  end.

(** The rows of the events of a batch (of those that serialize). *)
Definition rows_of (events : list Event) : list Row :=
  flat_map (fun e => match row_of e with Some r => [r] | None => [] end) events.

(** Every row of the list can be read back by GetEvents. *)
Definition readable (rs : list Row) : Prop :=
  Forall (fun r => scan r <> None) rs.

(** The events read from a list of rows. *)
Definition events_of (rs : list Row) : list Event :=
  flat_map (fun r => match scan r with Some e => [e] | None => [] end) rs.

(** The stored events, in insertion order. *)
Definition stored (db : t) : list Event := events_of (rows db).

(** The page that [GetEvents(limit, offset)] returns. *)
Definition page (db : t) (limit offset : Z) : list Event :=
  fst (fst (GetEvents db limit offset)).



(** Rows in the order of [ORDER BY timestamp DESC]. *)
Definition rows_desc : list Row -> Prop :=
  StronglySorted (fun a b => (timestamp b <= timestamp a)%Z).

(** Newest first. *)
Definition newest_first (events : list Event) : Prop :=
  StronglySorted (fun a b => (Timestamp b <= Timestamp a)%Z) events.

End DB.

(** The outcome of a call that may panic. *)
Inductive outcome (A : Type) : Type :=
| Returned (a : A)
| Panic.   (* panic: close of closed channel *)
Arguments Panic {A}.

(** The cases of the [select] in flushWorker. *)
Inductive select_case : Type :=
| TickerC   (* case <-ticker.C *)
| StopCh.   (* case <-stopCh *)

(* ------------------------------------------------------------------ *)
(** ** Logger: the server-side ingestion buffer and its scheduler *)

Module Logger.

(** What a call does to its sink: one entry per call of
    [l.db.InsertEvents], with the batch handed over and the error it
    returned. *)
Inductive effect : Type :=
| InsertEventsCall (events : list Event) (result : option err).

(** The Logger struct.  [stopCh_closed] is the state of the channel
    [stopCh]; [worker_running] is the WaitGroup counter (one while the
    flushWorker goroutine has not returned). *)
Record t : Type := mkLogger {
  db : DB.t;
  queue : list Event;
  stopCh_closed : bool;
  worker_running : bool
}.

Definition set_queue (q : list Event) (l : t) : t :=
  {| db := db l; queue := q;
     stopCh_closed := stopCh_closed l; worker_running := worker_running l |}.

Definition set_db (d : DB.t) (l : t) : t :=
  {| db := d; queue := queue l;
     stopCh_closed := stopCh_closed l; worker_running := worker_running l |}.

Definition close_stopCh (l : t) : t :=
  {| db := db l; queue := queue l;
     stopCh_closed := true; worker_running := worker_running l |}.

Definition wg_Done (l : t) : t :=
  {| db := db l; queue := queue l;
     stopCh_closed := stopCh_closed l; worker_running := false |}.

(** [func NewLogger(db *DB, flushPeriod time.Duration) *Logger] *)
Definition NewLogger (d : DB.t) : t :=
  {| db := d; queue := []; stopCh_closed := false; worker_running := true |}.

(** The event as Emit queues it: the clock reading replaces a zero
    timestamp. *)
Definition stamp (now : Z) (e : Event) : Event :=
  if IsZero (Timestamp e)
  then {| Key := Key e; Timestamp := now; Data := Data e |}
  else e.

(** [func (l *Logger) Emit(e Event) error]; [now] is what [time.Now()]
    reads. *)
Definition Emit (now : Z) (e : Event) (l : t) : option err * t :=
  (None, set_queue (queue l ++ [stamp now e]) l).

(** [func (l *Logger) flush()] *)
Definition flush (l : t) : list effect * t :=
  match queue l with
  | [] => ([], l)
  | _ :: _ =>
      let events := queue l in
      let l := set_queue [] l in
      let (result, d) := DB.InsertEvents (db l) events in
      ([InsertEventsCall events result], set_db d l)
  end.

(** [func (l *Logger) Flush()] *)
Definition Flush (l : t) : list effect * t := flush l.

(** One iteration of the [for { select { ... } }] loop of flushWorker,
    for the case that the select takes.  [None]: the goroutine cannot
    take that case (it has returned, or the channel is not closed). *)
Definition flushWorker_step (c : select_case) (l : t)
  : option (list effect * t) :=
  if worker_running l then
    match c with
    | TickerC => Some (flush l)
    | StopCh =>
        if stopCh_closed l
        then let (tr, l) := flush l in Some (tr, wg_Done l)
        else None
    end
  else None.

(** [l.wg.Wait()]: returns once the counter is zero.  Until then the
    worker runs; its select may take [ticks] ticks that are due before
    it takes the stop case, after which the goroutine returns.
    [None]: the wait never returns. *)
Fixpoint wg_Wait (ticks : nat) (l : t) : option (list effect * t) :=
  if worker_running l then
    match ticks with
    | O => flushWorker_step StopCh l
    | S ticks =>
        match flushWorker_step TickerC l with
        | Some (tr, l) =>
            match wg_Wait ticks l with
            | Some (tr', l) => Some (tr ++ tr', l)
            | None => None
            end
        | None => None
        end
    end
  else Some ([], l).

(** [func (l *Logger) Stop()]: [close(l.stopCh); l.wg.Wait()].
    [None]: the call does not return. *)
Definition Stop (ticks : nat) (l : t) : option (outcome (list effect * t)) :=
  if stopCh_closed l then Some Panic
  else match wg_Wait ticks (close_stopCh l) with
       | Some r => Some (Returned r)
       | None => None
       end.

(** The batches handed to the sink by a trace, in order. *)
Definition handed (tr : list effect) : list Event :=
  flat_map (fun c => match c with InsertEventsCall events _ => events end) tr.

(** The batches of a trace whose sink call returned no error. *)
Definition committed (tr : list effect) : list Event :=
  flat_map (fun c => match c with
                     | InsertEventsCall events None => events
                     | InsertEventsCall _ (Some _) => []
                     end) tr.

(** *** Operation sequences on a running logger *)

(** What can happen to a logger before it is stopped: a producer emits,
    someone calls Flush, or a period elapses. *)
Inductive op : Type :=
| OpEmit (now : Z) (e : Event)
| OpFlush
| OpTick.

Definition step (o : op) (l : t) : list effect * t :=
  match o with
  | OpEmit now e => ([], snd (Emit now e l))
  | OpFlush => Flush l
  | OpTick =>
      match flushWorker_step TickerC l with
      | Some r => r
      | None => ([], l)
      end
  end.

Fixpoint run (ops : list op) (l : t) : list effect * t :=
  match ops with
  | [] => ([], l)
  | o :: rest =>
      let (tr, l) := step o l in
      let (tr', l) := run rest l in
      (tr ++ tr', l)
  end.

(** The events that a sequence of operations emits, as queued. *)
Definition emitted (ops : list op) : list Event :=
  flat_map (fun o => match o with
                     | OpEmit now e => [stamp now e]
                     | _ => []
                     end) ops.


(** The bookkeeping of a call that starts in [l], emits [new], makes the
    sink calls [tr] and ends in [l']: what was queued or emitted has
    been handed over or is still queued, and the table has grown by the
    rows of the batches that were committed. *)
Definition accounts (l : t) (new : list Event) (tr : list effect) (l' : t)
  : Prop :=
  handed tr ++ queue l' = queue l ++ new /\
  DB.rows (db l') = DB.rows (db l) ++ DB.rows_of (committed tr) /\
  Forall (fun e => DB.row_of e <> None) (committed tr) /\
  DB.exec_err (db l') = DB.exec_err (db l) /\
  stopCh_closed l' = stopCh_closed l /\
  worker_running l' = worker_running l.

(** [Emit] called once per element, in order. *)
Definition emit_all (es : list (Z * Event)) (l : t) : t :=
  fold_left (fun l ne => snd (Emit (fst ne) (snd ne) l)) es l.

End Logger.

(* ------------------------------------------------------------------ *)
(** ** Client: the client-side mirror, whose sink is the network *)

Module Client.

(** The body of a POST to [/events]: the JSON array that
    [json.Marshal(events)] writes, one object per event. *)
Definition body : Type := list (string * Z * Json.doc).

(** [json.Marshal(events)] *)
Definition MarshalEvents (events : list Event) : option body :=
  mapM (fun e => option_map (fun d => (Key e, Timestamp e, d))
                   (Json.Marshal (Data e))) events.

(** One entry per call of [c.sendEvents], with the batch handed over and
    the error it returned. *)
Inductive effect : Type :=
| SendEventsCall (events : list Event) (result : option err).

(** The Client struct.  [post] stands for
    [httpClient.Post(serverURL+"/events", ...)]: [None] is a transport
    error, [Some code] the status code of the response. *)
Record t : Type := mkClient {
  post : body -> option Z;
  queue : list Event;
  stopCh_closed : bool;
  worker_running : bool
}.

Definition set_queue (q : list Event) (c : t) : t :=
  {| post := post c; queue := q;
     stopCh_closed := stopCh_closed c; worker_running := worker_running c |}.

Definition close_stopCh (c : t) : t :=
  {| post := post c; queue := queue c;
     stopCh_closed := true; worker_running := worker_running c |}.

Definition wg_Done (c : t) : t :=
  {| post := post c; queue := queue c;
     stopCh_closed := stopCh_closed c; worker_running := false |}.

(** [func newHTTPClient(serverURL string, flushPeriod time.Duration) *Client] *)
Definition newHTTPClient (server : body -> option Z) : t :=
  {| post := server; queue := [];
     stopCh_closed := false; worker_running := true |}.

(** [func (c *Client) Emit(e Event) error] *)
Definition Emit (now : Z) (e : Event) (c : t) : option err * t :=
  (None, set_queue (queue c ++ [Logger.stamp now e]) c).

Definition StatusOK : Z := 200.

(** [func (c *Client) sendEvents(events []Event) error] *)
Definition sendEvents (c : t) (events : list Event) : option err :=
  match MarshalEvents events with
  | None => Some MarshalError
  | Some jsonData =>
      match post c jsonData with
      | None => Some TransportError
      | Some code =>
          if (code =? StatusOK)%Z then None else Some (StatusError code)
      end
  end.

(** [func (c *Client) flush()] *)
Definition flush (c : t) : list effect * t :=
  match queue c with
  | [] => ([], c)
  | _ :: _ =>
      let events := queue c in
      let c := set_queue [] c in
      ([SendEventsCall events (sendEvents c events)], c)
  end.

(** [func (c *Client) Flush()] *)
Definition Flush (c : t) : list effect * t := flush c.

(** One iteration of the loop of [func (c *Client) flushWorker()]. *)
Definition flushWorker_step (s : select_case) (c : t)
  : option (list effect * t) :=
  if worker_running c then
    match s with
    | TickerC => Some (flush c)
    | StopCh =>
        if stopCh_closed c
        then let (tr, c) := flush c in Some (tr, wg_Done c)
        else None
    end
  else None.

(** [c.wg.Wait()] *)
Fixpoint wg_Wait (ticks : nat) (c : t) : option (list effect * t) :=
  if worker_running c then
    match ticks with
    | O => flushWorker_step StopCh c
    | S ticks =>
        match flushWorker_step TickerC c with
        | Some (tr, c) =>
            match wg_Wait ticks c with
            | Some (tr', c) => Some (tr ++ tr', c)
            | None => None
            end
        | None => None
        end
    end
  else Some ([], c).

(** [func (c *Client) Stop()]: [close(c.stopCh); c.wg.Wait()] *)
Definition Stop (ticks : nat) (c : t) : option (outcome (list effect * t)) :=
  if stopCh_closed c then Some Panic
  else match wg_Wait ticks (close_stopCh c) with
       | Some r => Some (Returned r)
       | None => None
       end.

End Client.

(* ------------------------------------------------------------------ *)
(** ** Go's int (64 bits, two's complement) *)

Module GoInt.

Definition min_int : Z := - 2 ^ 63.
Definition max_int : Z := 2 ^ 63 - 1.

(** The value of an [int] whose mathematical result is [z]. *)
Definition wrap (z : Z) : Z := (z + 2 ^ 63) mod 2 ^ 64 - 2 ^ 63.

Definition add (a b : Z) : Z := wrap (a + b).
Definition sub (a b : Z) : Z := wrap (a - b).
Definition mul (a b : Z) : Z := wrap (a * b).

(** [a / b] truncates toward zero (the divisor is not zero where this is
    used). *)
Definition div (a b : Z) : Z := wrap (Z.quot a b).

Definition in_range (z : Z) : Prop := (min_int <= z <= max_int)%Z.

End GoInt.

(* ------------------------------------------------------------------ *)
(** ** Server: the handlers that feed the logger *)

Module Server.

Definition StatusOK : Z := 200.
Definition StatusBadRequest : Z := 400.
Definition StatusInternalServerError : Z := 500.

(** The [for _, event := range events] loop of handleEvents; the [i]-th
    Emit of the request reads the clock as [now i]. *)
Fixpoint handleEvents_loop (now : nat -> Z) (i : nat)
  (events : list Event) (l : Logger.t) : Z * Logger.t :=
  match events with
  | [] => (StatusOK, l)
  | event :: rest =>
      if String.eqb (Key event) EmptyString
      then (StatusBadRequest, l)
      else
        match Logger.Emit (now i) event l with
        | (Some _, l) => (StatusInternalServerError, l)
        | (None, l) => handleEvents_loop now (S i) rest l
        end
  end.

(** [func (s *Server) handleEvents(c *gin.Context)].  [body] is what
    [c.ShouldBindJSON(&events)] yields: [None] when the request body is
    not a JSON array of events.  The result is the status code of the
    response and the server's logger. *)
Definition handleEvents (now : nat -> Z) (body : option (list Event))
  (l : Logger.t) : Z * Logger.t :=
  match body with
  | None => (StatusBadRequest, l)
  | Some events => handleEvents_loop now 0 events l
  end.

(** The first loop of handleBatch: every raw message is decoded and
    checked before anything is queued.  A raw message is [None] when
    [json.Unmarshal(rawEvent, &event)] fails. *)
Fixpoint handleBatch_decode (raw : list (option Event)) (events : list Event)
  : option (list Event) :=
  match raw with
  | [] => Some events
  | None :: _ => None
  | Some event :: rest =>
      if String.eqb (Key event) EmptyString then None
      else handleBatch_decode rest (events ++ [event])
  end.

(** The second loop of handleBatch. *)
Fixpoint handleBatch_emit (now : nat -> Z) (i : nat)
  (events : list Event) (l : Logger.t) : Z * Logger.t :=
  match events with
  | [] => (StatusOK, l)
  | event :: rest =>
      match Logger.Emit (now i) event l with
      | (Some _, l) => (StatusInternalServerError, l)
      | (None, l) => handleBatch_emit now (S i) rest l
      end
  end.

(** [func (s *Server) handleBatch(c *gin.Context)] *)
Definition handleBatch (now : nat -> Z) (body : option (list (option Event)))
  (l : Logger.t) : Z * Logger.t :=
  match body with
  | None => (StatusBadRequest, l)
  | Some raw =>
      match handleBatch_decode raw [] with
      | None => (StatusBadRequest, l)
      | Some events => handleBatch_emit now 0 events l
      end
  end.

(** [c.ShouldBindJSON(&events)] on a body written by [json.Marshal(events)]:
    each object of the array is read into an Event, its data like
    [json.Unmarshal] into the [Data] map.  [None]: the bind fails. *)
Definition ShouldBindJSON (b : Client.body) : option (list Event) :=
  mapM (fun w => match w with
                 | (k, t, d) =>
                     option_map (fun m => {| Key := k; Timestamp := t; Data := m |})
                       (Json.Unmarshal d)
                 end) b.

(** The ViewResponse struct. *)
Record ViewResponse : Type := mkViewResponse {
  Events : list Event;
  Total : Z;
  Page : Z;
  PageSize : Z;
  TotalPages : Z
}.

(** [func (s *Server) handleView(c *gin.Context)].  [page_q] and
    [page_size_q] are what [strconv.Atoi] returns for the query values
    [page] and [page_size] (for their defaults "1" and "10" when the
    parameter is absent): [None] when Atoi returns an error.  The result
    is the status code and the body of a 200 response. *)
Definition handleView (page_q page_size_q : option Z) (l : Logger.t)
  : Z * option ViewResponse :=
  let page :=
    match page_q with
    | Some n => if (n <? 1)%Z then 1%Z else n
    | None => 1%Z
    end in
  let pageSize :=
    match page_size_q with
    | Some n => if ((n <? 1)%Z || (1000 <? n)%Z)%bool then 10%Z else n
    | None => 10%Z
    end in
  let offset := GoInt.mul (GoInt.sub page 1) pageSize in
  match DB.GetEvents (Logger.db l) pageSize offset with
  | (_, _, Some _) => (StatusInternalServerError, None)
  | (events, total, None) =>
      let totalPages :=
        GoInt.div (GoInt.sub (GoInt.add total pageSize) 1) pageSize in
      (StatusOK,
       Some {| Events := events; Total := total; Page := page;
               PageSize := pageSize; TotalPages := totalPages |})
  end.

(** *** Vocabulary for the statements about the handlers *)

(** The events as one request queues them: the Emit for the event at
    position [k] reads the clock as [now (i + k)]. *)
Definition queued (now : nat -> Z) (i : nat) (events : list Event)
  : list Event :=
  map (fun ie => Logger.stamp (now (fst ie)) (snd ie))
    (combine (seq i (List.length events)) events).

(** The events of the raw messages that decode. *)
Definition raw_events (raw : list (option Event)) : list Event :=
  flat_map (fun r => match r with Some e => [e] | None => [] end) raw.

(** A raw message that handleBatch accepts: it decodes and has a key. *)
Definition raw_valid (r : option Event) : Prop :=
  exists e, r = Some e /\ Key e <> EmptyString.

End Server.

(* ------------------------------------------------------------------ *)
(** ** The gin middleware: events whose data is a shared map *)

Module Middleware.

(** A Go map is a reference.  The maps in use are kept in a heap, a map
    being addressed by its index; [None] is the nil map. *)
Definition heap : Type := list (list (string * Json.value)).
Definition ref : Type := option nat.

(** An Event as a Go value: its [Data] field holds a map reference. *)
Record RefEvent : Type := mkRefEvent {
  RKey : string;
  RTimestamp : Z;
  RData : ref
}.

(** [m[k]]: the entry of a key. *)
Fixpoint lookup (k : string) (m : list (string * Json.value))
  : option Json.value :=
  match m with
  | [] => None
  | (k', v) :: rest => if String.eqb k' k then Some v else lookup k rest
  end.

(** [m[k] = v] *)
Fixpoint assign (k : string) (v : Json.value) (m : list (string * Json.value))
  : list (string * Json.value) :=
  match m with
  | [] => [(k, v)]
  | (k', v') :: rest =>
      if String.eqb k' k then (k, v) :: rest else (k', v') :: assign k v rest
  end.

(** [m[k] = v] through the reference [a]. *)
Fixpoint store (a : nat) (k : string) (v : Json.value) (h : heap) : heap :=
  match h, a with
  | [], _ => []
  | m :: rest, O => assign k v m :: rest
  | m :: rest, S a => m :: store a k v rest
  end.

(** What the handlers read from the gin context of one request, and the
    clock readings they take. *)
Record Request : Type := mkRequest {
  start : Z;            (* time.Now() on entry *)
  method : string;      (* c.Request.Method *)
  path : string;        (* c.Request.URL.Path *)
  status_code : Z;      (* c.Writer.Status() *)
  duration_ms : Z;      (* time.Since(start).Milliseconds() *)
  client_ip : string;   (* c.ClientIP() *)
  user_agent : string;  (* c.GetHeader("User-Agent") *)
  response_size : Z;    (* c.Writer.Size() *)
  emit_now : Z          (* time.Now() inside Emit *)
}.

(** The maps of the process and the queue of the Emitter, whose events
    hold references into them. *)
Record World : Type := mkWorld {
  maps : heap;
  queue : list RefEvent
}.

(** [analytics.Emit(event)] (Logger.Emit or Client.Emit): the struct is
    copied into the queue, its map is not. *)
Definition Emit (now : Z) (e : RefEvent) (w : World) : World :=
  let e := if IsZero (RTimestamp e)
           then {| RKey := RKey e; RTimestamp := now; RData := RData e |}
           else e in
  {| maps := maps w; queue := queue w ++ [e] |}.


(** The handler returned by
    [func TrackEvent(analytics Emitter, key string, data map[string]interface{}) gin.HandlerFunc],
    serving one request. *)
Definition TrackEvent (key : string) (data : ref) (r : Request) (w : World)
  : World :=
  let (a, h) :=
    match data with
    | Some a => (a, maps w)
    | None => (List.length (maps w), maps w ++ [[]])   (* make(map...) *)
    end in
  let event := {| RKey := key; RTimestamp := start r; RData := Some a |} in
  let h := store a "request_path" (Json.Str (path r)) h in
  let h := store a "client_ip" (Json.Str (client_ip r)) h in
  let h := store a "duration_ms" (Json.Number (duration_ms r)) h in
  Emit (emit_now r) event {| maps := h; queue := queue w |}.

(** The event as a flush sees it: the data is what the map holds at that
    time. *)
Definition deref (h : heap) (e : RefEvent) : Event :=
  {| Key := RKey e; Timestamp := RTimestamp e;
     Data := match RData e with
             | Some a => nth_error h a
             | None => None
             end |}.

(** The batch that a flush of the Emitter would take from the queue. *)
Definition snapshot (w : World) : list Event := map (deref (maps w)) (queue w).

End Middleware.

(* ------------------------------------------------------------------ *)
(** ** Concrete events, used to run the definitions *)

Module Examples.

Local Open Scope string_scope.

Definition login : Event :=
  {| Key := "test_event_1"; Timestamp := 0;
     Data := Some [("user", Json.Str "alice"); ("action", Json.Str "login")] |}.

Definition logout : Event :=
  {| Key := "test_event_2"; Timestamp := 0;
     Data := Some [("user", Json.Str "bob"); ("action", Json.Str "logout")] |}.

(** An event whose payload holds a channel: json.Marshal rejects it. *)
Definition unserializable : Event :=
  {| Key := "debug"; Timestamp := 0;
     Data := Some [("done", Json.Chan)] |}.

(** An event without a key. *)
Definition keyless : Event :=
  {| Key := EmptyString; Timestamp := 0;
     Data := Some [("page", Json.Str "home")] |}.


(** A store holding the two events [login] (at 10) and [logout] (at 20). *)
Definition two_rows : DB.t :=
  snd (DB.InsertEvents DB.Init
         [Logger.stamp 10 login; Logger.stamp 20 logout]).

(** A clock that advances by one per reading. *)
Definition clock (i : nat) : Z := 100 + Z.of_nat i.

(** Two requests to the same route. *)
Definition request_a : Middleware.Request :=
  {| Middleware.start := 500; Middleware.method := "GET";
     Middleware.path := "/api/users"; Middleware.status_code := 200;
     Middleware.duration_ms := 3; Middleware.client_ip := "10.0.0.1";
     Middleware.user_agent := "curl"; Middleware.response_size := 42;
     Middleware.emit_now := 503 |}.

Definition request_b : Middleware.Request :=
  {| Middleware.start := 600; Middleware.method := "GET";
     Middleware.path := "/api/users"; Middleware.status_code := 200;
     Middleware.duration_ms := 9; Middleware.client_ip := "10.0.0.2";
     Middleware.user_agent := "curl"; Middleware.response_size := 42;
     Middleware.emit_now := 609 |}.

(** A process that holds one map, as the example program builds for a
    route: [map[string]interface{}{"endpoint": "users", "action": "list"}]. *)
Definition route_world : Middleware.World :=
  {| Middleware.maps := [[("endpoint", Json.Str "users");
                          ("action", Json.Str "list")]];
     Middleware.queue := [] |}.

(** A table into which another program wrote a row whose data column is
    a JSON array: an older row (at 10) that does not fit the Data map,
    and a newer row (at 20) written by InsertEvents. *)
Definition foreign_row : DB.t :=
  {| DB.rows := [ {| DB.key := "import"; DB.timestamp := 10;
                     DB.data := Json.JArray [] |};
                  {| DB.key := "test_event_2"; DB.timestamp := 20;
                     DB.data := Json.JObject [("user", Json.JString "bob")] |} ];
     DB.exec_err := fun _ => false |}.

End Examples.

(* ================================================================== *)
(** * Facts about the embedded functions *)

(** ** mapM *)

Lemma mapM_Forall2 {A B : Type} (f : A -> option B) (xs : list A) (ys : list B) :
  mapM f xs = Some ys <-> Forall2 (fun x y => f x = Some y) xs ys.
Proof.
  revert ys; induction xs as [|x xs IH]; intros ys; simpl.
  - split; intros H.
    + inversion H; constructor.
    + inversion H; reflexivity.
  - destruct (f x) as [y|] eqn:Hx.
    + destruct (mapM f xs) as [ys'|] eqn:Hm.
      * split; intros H.
        -- inversion H; subst. constructor; [assumption | now apply IH].
        -- inversion H as [|x0 y0 xs0 ys0 Hy Hr]; subst.
           apply IH in Hr. rewrite Hx in Hy. congruence.
      * split; intros H; [discriminate|].
        inversion H as [|x0 y0 xs0 ys0 Hy Hr]; subst.
        apply IH in Hr. discriminate.
    + split; intros H; [discriminate|].
      inversion H; subst; congruence.
Qed.

Lemma mapM_total {A B : Type} (f : A -> option B) (xs : list A) :
  Forall (fun x => f x <> None) xs -> exists ys, mapM f xs = Some ys.
Proof.
  induction 1 as [|x xs Hx _ [ys IH]]; simpl.
  - now exists [].
  - destruct (f x) as [y|]; [|congruence].
    rewrite IH. now exists (y :: ys).
Qed.


Lemma mapM_length {A B : Type} (f : A -> option B) (xs : list A) (ys : list B) :
  mapM f xs = Some ys -> List.length ys = List.length xs.
Proof.
  intros H. apply mapM_Forall2 in H.
  induction H; simpl; congruence.
Qed.

(** ** encoding/json: what is written can be read back *)

Lemma value_nested_ind (P : Json.value -> Prop) :
  P Json.Nil ->
  (forall b, P (Json.Bool b)) ->
  (forall n, P (Json.Number n)) ->
  (forall s, P (Json.Str s)) ->
  (forall vs, Forall P vs -> P (Json.Slice vs)) ->
  (forall kvs, Forall (fun kv => P (snd kv)) kvs -> P (Json.Map kvs)) ->
  P Json.Chan ->
  forall v, P v.
Proof.
  intros HN HB HZ HS HL HM HC.
  fix IH 1.
  intros [ | b | n | s | vs | kvs | ].
  - exact HN.
  - apply HB.
  - apply HZ.
  - apply HS.
  - apply HL. induction vs as [|v vs IHvs]; constructor.
    + apply IH.
    + exact IHvs.
  - apply HM. induction kvs as [|[k v] kvs IHkvs]; constructor.
    + apply IH.
    + exact IHkvs.
  - exact HC.
Qed.

Lemma MarshalValue_decode (v : Json.value) :
  forall d, Json.MarshalValue v = Some d -> Json.decode d = v.
Proof.
  induction v as [ | b | n | s | vs IH | kvs IH | ] using value_nested_ind;
    simpl; intros d Hd; try (inversion Hd; subst; reflexivity); try discriminate.
  - destruct (mapM Json.MarshalValue vs) as [ds|] eqn:Hm; [|discriminate].
    inversion Hd; subst; clear Hd. simpl. f_equal.
    apply mapM_Forall2 in Hm.
    induction Hm as [|v d vs ds Hv _ IHm]; simpl; [reflexivity|].
    inversion IH; subst. f_equal; auto.
  - match type of Hd with
    | option_map _ ?m = _ => destruct m as [kds|] eqn:Hm; [|discriminate]
    end.
    inversion Hd; subst; clear Hd. simpl. f_equal.
    apply mapM_Forall2 in Hm.
    induction Hm as [|[k v] [k' d] kvs kds Hv _ IHm]; simpl; [reflexivity|].
    inversion IH; subst. simpl in *.
    destruct (Json.MarshalValue v) as [d0|] eqn:Hv0; [|discriminate].
    simpl in Hv. inversion Hv; subst. f_equal; [f_equal|]; auto.
Qed.

Lemma Marshal_Unmarshal (m : Json.data) (d : Json.doc) :
  Json.Marshal m = Some d -> Json.Unmarshal d = Some m.
Proof.
  destruct m as [kvs|]; simpl; intros H.
  - pose proof (MarshalValue_decode (Json.Map kvs) H) as Hdec.
    simpl in H.
    match type of H with
    | option_map _ ?x = _ => destruct x as [kds|]; [|discriminate]
    end.
    inversion H; subst. unfold Json.Unmarshal. now rewrite Hdec.
  - inversion H; reflexivity.
Qed.

(** ** DB *)



Lemma insert_ok_row_of (db : DB.t) (e : Event) :
  DB.insert_ok db e = true ->
  exists r, DB.row_of e = Some r /\ DB.exec_err db r = false.
Proof.
  unfold DB.insert_ok. destruct (DB.row_of e) as [r|]; [|discriminate].
  intros H. exists r. split; [reflexivity|].
  now destruct (DB.exec_err db r).
Qed.

Lemma insert_loop_ok (db : DB.t) (events : list Event) :
  forall pending,
    forallb (DB.insert_ok db) events = true ->
    DB.insert_loop db pending events = inr (pending ++ DB.rows_of events).
Proof.
  induction events as [|e events IH]; intros pending H; simpl in *.
  - now rewrite app_nil_r.
  - apply andb_true_iff in H as [He Hrest].
    apply insert_ok_row_of in He as (r & Hr & Hx).
    rewrite Hr. unfold DB.row_of in Hr.
    destruct (Json.Marshal (Data e)) as [d|]; [|discriminate].
    simpl in Hr. inversion Hr; subst; clear Hr.
    rewrite Hx, (IH _ Hrest), <- app_assoc. reflexivity.
Qed.

Lemma insert_loop_fail (db : DB.t) (events : list Event) :
  forall pending,
    forallb (DB.insert_ok db) events = false ->
    exists x, DB.insert_loop db pending events = inl x.
Proof.
  induction events as [|e events IH]; intros pending H; simpl in *.
  - discriminate.
  - unfold DB.insert_ok, DB.row_of in H.
    destruct (Json.Marshal (Data e)) as [d|]; simpl in H; [|now eexists].
    destruct (DB.exec_err db _); simpl in H; [now eexists|].
    now apply IH.
Qed.

(** InsertEvents either commits the rows of the whole batch or leaves the
    store as it was. *)
Lemma InsertEvents_cases (db : DB.t) (events : list Event) :
  (forallb (DB.insert_ok db) events = true /\
   DB.InsertEvents db events =
     (None, {| DB.rows := DB.rows db ++ DB.rows_of events;
               DB.exec_err := DB.exec_err db |})) \/
  (forallb (DB.insert_ok db) events = false /\
   exists x, DB.InsertEvents db events = (Some x, db)).
Proof.
  unfold DB.InsertEvents.
  destruct (forallb (DB.insert_ok db) events) eqn:H.
  - left. split; [reflexivity|]. now rewrite (insert_loop_ok _ _ [] H).
  - right. split; [reflexivity|].
    destruct (insert_loop_fail _ _ [] H) as [x Hx]. rewrite Hx. now exists x.
Qed.

Lemma InsertEvents_exec_err (db : DB.t) (events : list Event) :
  DB.exec_err (snd (DB.InsertEvents db events)) = DB.exec_err db.
Proof.
  destruct (InsertEvents_cases db events) as [[_ H]|[_ [x H]]];
    now rewrite H.
Qed.



Lemma events_of_app (rs1 rs2 : list DB.Row) :
  DB.events_of (rs1 ++ rs2) = DB.events_of rs1 ++ DB.events_of rs2.
Proof. apply flat_map_app. Qed.

Lemma mapM_scan_readable (rs : list DB.Row) :
  DB.readable rs -> mapM DB.scan rs = Some (DB.events_of rs).
Proof.
  unfold DB.readable, DB.events_of.
  induction 1 as [|r rs Hr _ IH]; simpl; [reflexivity|].
  destruct (DB.scan r) as [e|]; [|congruence].
  now rewrite IH.
Qed.

Lemma events_of_length (rs : list DB.Row) :
  DB.readable rs -> List.length (DB.events_of rs) = List.length rs.
Proof.
  intros H. symmetry.
  rewrite <- (mapM_length _ _ (mapM_scan_readable H)). reflexivity.
Qed.

Lemma events_of_firstn (n : nat) (rs : list DB.Row) :
  DB.readable rs -> DB.events_of (firstn n rs) = firstn n (DB.events_of rs).
Proof.
  unfold DB.readable, DB.events_of. intros H; revert n.
  induction H as [|r rs Hr _ IH]; intros [|n]; simpl; try reflexivity.
  destruct (DB.scan r) as [e|]; [|congruence].
  simpl. now rewrite IH.
Qed.

Lemma events_of_skipn (n : nat) (rs : list DB.Row) :
  DB.readable rs -> DB.events_of (skipn n rs) = skipn n (DB.events_of rs).
Proof.
  unfold DB.readable, DB.events_of. intros H; revert n.
  induction H as [|r rs Hr _ IH]; intros [|n]; simpl; try reflexivity.
  destruct (DB.scan r) as [e|]; [|congruence].
  simpl. now rewrite IH.
Qed.

Lemma readable_firstn (n : nat) (rs : list DB.Row) :
  DB.readable rs -> DB.readable (firstn n rs).
Proof.
  unfold DB.readable. intros H; revert n.
  induction H; intros [|n]; simpl; constructor; auto.
Qed.

Lemma readable_skipn (n : nat) (rs : list DB.Row) :
  DB.readable rs -> DB.readable (skipn n rs).
Proof.
  unfold DB.readable. intros H; revert n.
  induction H; intros [|n]; simpl; try constructor; auto.
Qed.

Lemma events_of_Permutation (rs rs' : list DB.Row) :
  Permutation rs rs' -> Permutation (DB.events_of rs) (DB.events_of rs').
Proof.
  unfold DB.events_of.
  induction 1; simpl.
  - constructor.
  - now apply Permutation_app_head.
  - rewrite !app_assoc. apply Permutation_app_tail, Permutation_app_comm.
  - etransitivity; eassumption.
Qed.

(** *** ORDER BY timestamp DESC *)

Lemma insert_desc_Permutation (r : DB.Row) (l : list DB.Row) :
  Permutation (DB.insert_desc r l) (r :: l).
Proof.
  induction l as [|x l IH]; simpl; [reflexivity|].
  destruct (DB.timestamp x <=? DB.timestamp r)%Z; [reflexivity|].
  rewrite IH. apply perm_swap.
Qed.

Lemma order_by_Permutation (l : list DB.Row) :
  Permutation (DB.order_by_timestamp_desc l) l.
Proof.
  induction l as [|r l IH]; simpl; [constructor|].
  rewrite insert_desc_Permutation. now constructor.
Qed.

Lemma order_by_length (l : list DB.Row) :
  List.length (DB.order_by_timestamp_desc l) = List.length l.
Proof. apply Permutation_length, order_by_Permutation. Qed.

Lemma order_by_readable (l : list DB.Row) :
  DB.readable l -> DB.readable (DB.order_by_timestamp_desc l).
Proof.
  unfold DB.readable. apply Permutation_Forall.
  symmetry. apply order_by_Permutation.
Qed.

Lemma insert_desc_sorted (r : DB.Row) (l : list DB.Row) :
  DB.rows_desc l -> DB.rows_desc (DB.insert_desc r l).
Proof.
  unfold DB.rows_desc.
  induction 1 as [|x l Hl IH Hx]; simpl.
  - repeat constructor.
  - destruct (DB.timestamp x <=? DB.timestamp r)%Z eqn:Hc.
    + apply Z.leb_le in Hc.
      constructor; [now constructor|].
      constructor; [assumption|].
      eapply Forall_impl; [|exact Hx]. simpl. intros; lia.
    + apply Z.leb_gt in Hc.
      constructor; [assumption|].
      eapply Permutation_Forall.
      * symmetry. apply insert_desc_Permutation.
      * constructor; [lia | assumption].
Qed.

Lemma order_by_sorted (l : list DB.Row) :
  DB.rows_desc (DB.order_by_timestamp_desc l).
Proof.
  induction l as [|r l IH]; simpl.
  - constructor.
  - now apply insert_desc_sorted.
Qed.



Lemma StronglySorted_firstn {A : Type} (R : A -> A -> Prop) (n : nat) (l : list A) :
  StronglySorted R l -> StronglySorted R (firstn n l).
Proof.
  intros H; revert n.
  induction H as [|x l Hl IH Hx]; intros [|n]; simpl; try constructor.
  - apply IH.
  - clear -Hx. revert n. induction Hx; intros [|n]; simpl; constructor; auto.
Qed.

Lemma StronglySorted_skipn {A : Type} (R : A -> A -> Prop) (n : nat) (l : list A) :
  StronglySorted R l -> StronglySorted R (skipn n l).
Proof.
  intros H; revert n.
  induction H as [|x l Hl IH Hx]; intros [|n]; simpl; try constructor; auto.
Qed.


(** *** LIMIT and OFFSET *)

Lemma sql_limit_offset_nat {A : Type} (limit offset : Z) (l : list A) :
  (0 <= limit)%Z -> (0 <= offset)%Z ->
  DB.sql_limit_offset limit offset l =
    firstn (Z.to_nat limit) (skipn (Z.to_nat offset) l).
Proof.
  intros Hl Ho. unfold DB.sql_limit_offset.
  rewrite Z.max_r by assumption.
  destruct (limit <? 0)%Z eqn:Hc; [|reflexivity].
  apply Z.ltb_lt in Hc. lia.
Qed.

Lemma newest_first_window (limit offset : Z) (es : list Event) :
  DB.newest_first es -> DB.newest_first (DB.sql_limit_offset limit offset es).
Proof.
  unfold DB.newest_first, DB.sql_limit_offset. intros H.
  destruct (limit <? 0)%Z.
  - now apply StronglySorted_skipn.
  - now apply StronglySorted_firstn, StronglySorted_skipn.
Qed.

Lemma readable_window (limit offset : Z) (rs : list DB.Row) :
  DB.readable rs -> DB.readable (DB.sql_limit_offset limit offset rs).
Proof.
  unfold DB.sql_limit_offset. intros H.
  destruct (limit <? 0)%Z.
  - now apply readable_skipn.
  - now apply readable_firstn, readable_skipn.
Qed.

Lemma events_of_window (limit offset : Z) (rs : list DB.Row) :
  DB.readable rs ->
  DB.events_of (DB.sql_limit_offset limit offset rs) =
    DB.sql_limit_offset limit offset (DB.events_of rs).
Proof.
  unfold DB.sql_limit_offset. intros H.
  destruct (limit <? 0)%Z.
  - now apply events_of_skipn.
  - rewrite events_of_firstn by now apply readable_skipn.
    now rewrite events_of_skipn.
Qed.

(** *** GetEvents on a store whose rows are all readable *)

Lemma GetEvents_readable (db : DB.t) (limit offset : Z) :
  DB.readable (DB.rows db) ->
  DB.GetEvents db limit offset =
    (DB.sql_limit_offset limit offset
       (DB.events_of (DB.order_by_timestamp_desc (DB.rows db))),
     Z.of_nat (List.length (DB.rows db)), None).
Proof.
  intros H. unfold DB.GetEvents.
  apply order_by_readable in H.
  rewrite (mapM_scan_readable (readable_window limit offset H)).
  now rewrite events_of_window.
Qed.

Lemma GetEvents_total (db : DB.t) (limit offset : Z)
  (events : list Event) (total : Z) :
  DB.GetEvents db limit offset = (events, total, None) ->
  total = Z.of_nat (List.length (DB.rows db)).
Proof.
  unfold DB.GetEvents.
  destruct (mapM DB.scan _); intros H; inversion H; reflexivity.
Qed.

Lemma mapM_scan_inv (rs : list DB.Row) (es : list Event) :
  mapM DB.scan rs = Some es -> DB.readable rs /\ es = DB.events_of rs.
Proof.
  intros H.
  assert (Hr : DB.readable rs).
  { apply mapM_Forall2 in H. unfold DB.readable.
    induction H as [|r e rs es Hre _ IH]; constructor; [congruence | assumption]. }
  split; [assumption|].
  rewrite (mapM_scan_readable Hr) in H. now inversion H.
Qed.






(* ================================================================== *)
(** * The properties of the pipeline *)

(** ** Batch insert *)

(** C2 - Batch-insert atomicity.  For every batch: if the data of one of
    its events does not serialize, or the insert of one of its rows
    reports an error, InsertEvents returns an error and the store is left
    exactly as it was (the transaction is rolled back, no row of the
    batch is visible); it returns without error only when every event of
    the batch was inserted without error, and then the rows of the whole
    batch are appended. *)
Theorem InsertEvents_all_or_nothing (db : DB.t) (events : list Event) :
  (forall e, In e events -> Json.Marshal (Data e) = None ->
     exists x, DB.InsertEvents db events = (Some x, db)) /\
  (forall e, In e events -> DB.insert_ok db e = false ->
     exists x, DB.InsertEvents db events = (Some x, db)) /\
  (forall x db', DB.InsertEvents db events = (Some x, db') ->
     db' = db /\ forall limit offset,
       DB.GetEvents db' limit offset = DB.GetEvents db limit offset) /\
  (forall db', DB.InsertEvents db events = (None, db') ->
     forallb (DB.insert_ok db) events = true /\
     DB.rows db' = DB.rows db ++ DB.rows_of events /\
     List.length (DB.rows_of events) = List.length events) /\
  (forallb (DB.insert_ok db) events = true ->
     fst (DB.InsertEvents db events) = None).
Proof.
  assert (Hfail : forall e, In e events -> DB.insert_ok db e = false ->
                    exists x, DB.InsertEvents db events = (Some x, db)).
  { intros e Hin He.
    destruct (InsertEvents_cases db events) as [[Hok _]|[_ H]]; [|exact H].
    rewrite forallb_forall in Hok. rewrite (Hok e Hin) in He. discriminate. }
  repeat split.
  - intros e Hin Hm. apply (Hfail e Hin).
    unfold DB.insert_ok, DB.row_of. now rewrite Hm.
  - exact Hfail.
  - destruct (InsertEvents_cases db events) as [[_ Heq]|[_ [y Heq]]];
      rewrite Heq in H; now inversion H.
  - intros limit offset.
    destruct (InsertEvents_cases db events) as [[_ Heq]|[_ [y Heq]]];
      rewrite Heq in H; now inversion H.
  - destruct (InsertEvents_cases db events) as [[Hok _]|[_ [y Heq]]];
      [assumption | rewrite Heq in H; discriminate].
  - destruct (InsertEvents_cases db events) as [[_ Heq]|[_ [y Heq]]];
      rewrite Heq in H; now inversion H.
  - destruct (InsertEvents_cases db events) as [[Hok Heq]|[_ [y Heq]]];
      rewrite Heq in H; inversion H; subst.
    clear -Hok. unfold DB.rows_of.
    induction events as [|e events IH]; simpl in *; [reflexivity|].
    apply andb_true_iff in Hok as [He Hrest].
    apply insert_ok_row_of in He as (r & Hr & _). rewrite Hr. simpl.
    now rewrite IH.
  - intros Hok.
    destruct (InsertEvents_cases db events) as [[_ Heq]|[Hno _]];
      [now rewrite Heq | congruence].
Qed.

(** A batch of two events whose second one holds a channel: the first
    event is not stored either. *)
Lemma InsertEvents_all_or_nothing_witness :
  exists x,
    DB.InsertEvents DB.Init [Examples.login; Examples.unserializable]
    = (Some x, DB.Init).
Proof.
  apply (proj1 (InsertEvents_all_or_nothing DB.Init
                  [Examples.login; Examples.unserializable])
           Examples.unserializable).
  - right. left. reflexivity.
  - reflexivity.
Defined.

Example InsertEvents_rolls_back :
  DB.InsertEvents DB.Init [Examples.login; Examples.unserializable]
  = (Some MarshalError, DB.Init).
Proof. reflexivity. Qed.

(** ** Paginated reads *)



(** C5 (as the code has it) - Degenerate page arguments.  A limit of 0,
    or an offset at or beyond the row count, yields an empty page and no
    error, and whenever GetEvents returns without error its total is the
    full row count whatever the limit and offset.  A negative limit is no
    bound (the page runs from the offset to the oldest row) and a negative
    offset counts as offset 0, so such calls return rows. *)
Theorem GetEvents_degenerate_arguments (db : DB.t) :
  let T := Z.of_nat (List.length (DB.rows db)) in
  (forall offset, DB.GetEvents db 0 offset = ([], T, None)) /\
  (forall limit offset, (T <= offset)%Z ->
     DB.GetEvents db limit offset = ([], T, None)) /\
  (forall limit offset events total,
     DB.GetEvents db limit offset = (events, total, None) -> total = T) /\
  (forall limit offset, (offset < 0)%Z ->
     DB.GetEvents db limit offset = DB.GetEvents db limit 0) /\
  (forall limit offset, (limit < 0)%Z -> DB.readable (DB.rows db) ->
     DB.GetEvents db limit offset =
       (skipn (Z.to_nat offset)
          (DB.events_of (DB.order_by_timestamp_desc (DB.rows db))),
        T, None)).
Proof.
  intros T. split; [|split; [|split; [|split]]].
  - intros offset. unfold DB.GetEvents, DB.sql_limit_offset. reflexivity.
  - intros limit offset Ho. unfold DB.GetEvents, DB.sql_limit_offset.
    rewrite skipn_all2 by (rewrite order_by_length; subst T; lia).
    destruct (limit <? 0)%Z; [reflexivity|]. now rewrite firstn_nil.
  - intros limit offset events total. apply GetEvents_total.
  - intros limit offset Ho. unfold DB.GetEvents, DB.sql_limit_offset.
    now replace (Z.max 0 offset) with (Z.max 0 0) by lia.
  - intros limit offset Hl Hr. rewrite (GetEvents_readable _ _ _ Hr).
    unfold DB.sql_limit_offset.
    apply Z.ltb_lt in Hl. rewrite Hl.
    replace (Z.to_nat (Z.max 0 offset)) with (Z.to_nat offset) by lia.
    reflexivity.
Qed.

Lemma GetEvents_degenerate_arguments_witness :
  DB.GetEvents Examples.two_rows 10 2 = ([], 2%Z, None) /\
  DB.GetEvents Examples.two_rows 1 (-3) = DB.GetEvents Examples.two_rows 1 0.
Proof.
  pose proof (GetEvents_degenerate_arguments Examples.two_rows) as H.
  simpl in H. destruct H as (_ & Hbeyond & _ & Hneg & _).
  split.
  - apply Hbeyond. vm_compute. discriminate.
  - apply Hneg. reflexivity.
Defined.

(** C5, as stated, fails: on a store of two rows, a limit of -1 returns
    both rows and an offset of -1 returns the newest row, where the claim
    promises an empty page. *)
Lemma GetEvents_negative_arguments_return_rows :
  DB.GetEvents Examples.two_rows (-1) 0
  = ([Logger.stamp 20 Examples.logout; Logger.stamp 10 Examples.login],
     2%Z, None) /\
  DB.GetEvents Examples.two_rows 1 (-1)
  = ([Logger.stamp 20 Examples.logout], 2%Z, None).
Proof. split; reflexivity. Qed.

(** *** Walking through the pages *)








(** ** Logger *)


Lemma stamp_Key (now : Z) (e : Event) : Key (Logger.stamp now e) = Key e.
Proof. unfold Logger.stamp. now destruct (IsZero (Timestamp e)). Qed.

Lemma emit_all_queue (es : list (Z * Event)) (l : Logger.t) :
  Logger.emit_all es l =
    Logger.set_queue
      (Logger.queue l ++ map (fun ne => Logger.stamp (fst ne) (snd ne)) es) l.
Proof.
  unfold Logger.emit_all. revert l.
  induction es as [|[now e] es IH]; intros l; simpl.
  - rewrite app_nil_r. now destruct l.
  - rewrite IH. unfold Logger.set_queue. simpl.
    now rewrite <- app_assoc.
Qed.

Lemma flush_empty (l : Logger.t) :
  Logger.queue l = [] -> Logger.flush l = ([], l).
Proof. unfold Logger.flush. now intros ->. Qed.

Lemma flush_nonempty (l : Logger.t) :
  Logger.queue l <> [] ->
  Logger.flush l =
    ([Logger.InsertEventsCall (Logger.queue l)
        (fst (DB.InsertEvents (Logger.db l) (Logger.queue l)))],
     Logger.set_db (snd (DB.InsertEvents (Logger.db l) (Logger.queue l)))
       (Logger.set_queue [] l)).
Proof.
  unfold Logger.flush. destruct (Logger.queue l) as [|e q] eqn:Hq; [congruence|].
  intros _. simpl. now destruct (DB.InsertEvents (Logger.db l) (e :: q)).
Qed.

Lemma flush_queue (l : Logger.t) : Logger.queue (snd (Logger.flush l)) = [].
Proof.
  destruct (Logger.queue l) as [|e q] eqn:Hq.
  - now rewrite flush_empty.
  - rewrite flush_nonempty by congruence. reflexivity.
Qed.

Lemma rows_of_app (es1 es2 : list Event) :
  DB.rows_of (es1 ++ es2) = DB.rows_of es1 ++ DB.rows_of es2.
Proof. apply flat_map_app. Qed.

Lemma handed_app (tr1 tr2 : list Logger.effect) :
  Logger.handed (tr1 ++ tr2) = Logger.handed tr1 ++ Logger.handed tr2.
Proof. apply flat_map_app. Qed.

Lemma committed_app (tr1 tr2 : list Logger.effect) :
  Logger.committed (tr1 ++ tr2) = Logger.committed tr1 ++ Logger.committed tr2.
Proof. apply flat_map_app. Qed.


Lemma flush_accounts (l : Logger.t) :
  Logger.accounts l [] (fst (Logger.flush l)) (snd (Logger.flush l)) /\
  Logger.queue (snd (Logger.flush l)) = [].
Proof.
  split; [|apply flush_queue].
  unfold Logger.accounts.
  destruct (Logger.queue l) as [|e q] eqn:Hq.
  - rewrite flush_empty by assumption. simpl. rewrite Hq, !app_nil_r.
    repeat split; constructor.
  - rewrite flush_nonempty by congruence. rewrite Hq. simpl.
    destruct (InsertEvents_cases (Logger.db l) (e :: q))
      as [[Hok Heq]|[_ [x Heq]]]; rewrite Heq; simpl.
    + rewrite !app_nil_r. repeat split; try reflexivity.
      apply Forall_forall. intros a Ha.
      rewrite forallb_forall in Hok. specialize (Hok a Ha).
      apply insert_ok_row_of in Hok as (r & Hr & _). congruence.
    + rewrite !app_nil_r. repeat split; try reflexivity. constructor.
Qed.

Lemma accounts_trans (l1 l2 l3 : Logger.t) (new1 new2 : list Event)
  (tr1 tr2 : list Logger.effect) :
  Logger.accounts l1 new1 tr1 l2 ->
  Logger.accounts l2 new2 tr2 l3 ->
  Logger.accounts l1 (new1 ++ new2) (tr1 ++ tr2) l3.
Proof.
  unfold Logger.accounts.
  intros (Hq1 & Hr1 & Hs1 & He1 & Hc1 & Hw1) (Hq2 & Hr2 & Hs2 & He2 & Hc2 & Hw2).
  rewrite handed_app, committed_app, rows_of_app.
  repeat split; try congruence.
  - rewrite <- app_assoc, Hq2, !app_assoc. f_equal. exact Hq1.
  - rewrite Hr2, Hr1. now rewrite app_assoc.
  - apply Forall_app. now split.
Qed.

Lemma step_accounts (o : Logger.op) (l : Logger.t) :
  Logger.accounts l (Logger.emitted [o])
    (fst (Logger.step o l)) (snd (Logger.step o l)).
Proof.
  destruct o as [now e| |]; simpl.
  - unfold Logger.accounts. simpl. repeat split; try constructor.
    now rewrite !app_nil_r.
  - apply flush_accounts.
  - unfold Logger.flushWorker_step.
    destruct (Logger.worker_running l); [apply flush_accounts|].
    unfold Logger.accounts. simpl. rewrite !app_nil_r.
    repeat split; constructor.
Qed.

Lemma run_accounts (ops : list Logger.op) (l : Logger.t) :
  Logger.accounts l (Logger.emitted ops)
    (fst (Logger.run ops l)) (snd (Logger.run ops l)).
Proof.
  revert l; induction ops as [|o ops IH]; intros l.
  - unfold Logger.accounts. simpl. rewrite !app_nil_r.
    repeat split; constructor.
  - simpl Logger.run.
    pose proof (step_accounts o l) as Hs.
    destruct (Logger.step o l) as [tr1 l1]. cbn [fst snd] in Hs.
    specialize (IH l1).
    destruct (Logger.run ops l1) as [tr2 l2]. cbn [fst snd] in IH |- *.
    replace (Logger.emitted (o :: ops))
      with (Logger.emitted [o] ++ Logger.emitted ops)
      by (unfold Logger.emitted; simpl; now rewrite app_nil_r).
    eapply accounts_trans; eassumption.
Qed.

(** *** The worker and Stop *)

Lemma wg_Wait_returns (ticks : nat) (l : Logger.t) :
  Logger.worker_running l = true ->
  Logger.stopCh_closed l = true ->
  exists tr l',
    Logger.wg_Wait ticks l = Some (tr, Logger.wg_Done l') /\
    Logger.accounts l [] tr l' /\
    Logger.queue l' = [].
Proof.
  revert l; induction ticks as [|ticks IH]; intros l Hw Hc.
  - destruct (flush_accounts l) as [Hacc Hq].
    exists (fst (Logger.flush l)), (snd (Logger.flush l)).
    split; [|now split].
    simpl. unfold Logger.flushWorker_step. rewrite Hw, Hc.
    now destruct (Logger.flush l).
  - destruct (flush_accounts l) as [Hacc _].
    destruct (Logger.flush l) as [tr1 l1] eqn:Hf. cbn [fst snd] in Hacc.
    assert (Hw1 : Logger.worker_running l1 = true)
      by (destruct Hacc as (_ & _ & _ & _ & _ & ->); exact Hw).
    assert (Hc1 : Logger.stopCh_closed l1 = true)
      by (destruct Hacc as (_ & _ & _ & _ & -> & _); exact Hc).
    destruct (IH l1 Hw1 Hc1) as (tr2 & l2 & Hwait & Hacc2 & Hq2).
    exists (tr1 ++ tr2), l2. split; [|split].
    + simpl. unfold Logger.flushWorker_step. rewrite Hw, Hf, Hwait. reflexivity.
    + apply (accounts_trans Hacc Hacc2).
    + exact Hq2.
Qed.

Lemma wg_Wait_stopCh (ticks : nat) (l : Logger.t) (tr : list Logger.effect)
  (l' : Logger.t) :
  Logger.wg_Wait ticks l = Some (tr, l') ->
  Logger.stopCh_closed l' = Logger.stopCh_closed l /\
  Logger.worker_running l' = false.
Proof.
  revert l tr; induction ticks as [|ticks IH]; intros l tr; simpl;
    destruct (Logger.worker_running l) eqn:Hw;
    try (intros H; inversion H; subst; now split).
  - unfold Logger.flushWorker_step. rewrite Hw.
    destruct (Logger.stopCh_closed l) eqn:Hc; [|discriminate].
    destruct (flush_accounts l) as [(_ & _ & _ & _ & Hc' & _) _].
    destruct (Logger.flush l) as [tr1 l1]. simpl.
    intros H; inversion H; subst. simpl in *. split; congruence.
  - unfold Logger.flushWorker_step. rewrite Hw.
    destruct (flush_accounts l) as [(_ & _ & _ & _ & Hc' & _) _].
    destruct (Logger.flush l) as [tr1 l1]. simpl in Hc'.
    destruct (Logger.wg_Wait ticks l1) as [[tr2 l2]|] eqn:Hwait; [|discriminate].
    intros H; inversion H; subst.
    destruct (IH _ _ Hwait) as [Hc2 Hw2]. split; congruence.
Qed.

Lemma Stop_returns (ticks : nat) (l : Logger.t) :
  Logger.stopCh_closed l = false ->
  Logger.worker_running l = true ->
  exists tr l',
    Logger.Stop ticks l = Some (Returned (tr, Logger.wg_Done l')) /\
    Logger.accounts (Logger.close_stopCh l) [] tr l' /\
    Logger.queue l' = [].
Proof.
  intros Hc Hw. unfold Logger.Stop. rewrite Hc.
  destruct (wg_Wait_returns ticks (Logger.close_stopCh l) Hw eq_refl)
    as (tr & l' & Hwait & Hacc & Hq).
  exists tr, l'. rewrite Hwait. split; [reflexivity | split; assumption].
Qed.

Lemma Stop_closes (ticks : nat) (l : Logger.t) (tr : list Logger.effect)
  (l' : Logger.t) :
  Logger.Stop ticks l = Some (Returned (tr, l')) ->
  Logger.stopCh_closed l' = true /\ Logger.worker_running l' = false.
Proof.
  unfold Logger.Stop.
  destruct (Logger.stopCh_closed l); [discriminate|].
  destruct (Logger.wg_Wait ticks (Logger.close_stopCh l)) as [[tr1 l1]|] eqn:Hwait;
    [|discriminate].
  intros H; inversion H; subst.
  apply wg_Wait_stopCh in Hwait. exact Hwait.
Qed.

(** ** Client *)

Lemma client_flush_empty (c : Client.t) :
  Client.queue c = [] -> Client.flush c = ([], c).
Proof. unfold Client.flush. now intros ->. Qed.

Lemma client_flush_nonempty (c : Client.t) :
  Client.queue c <> [] ->
  Client.flush c =
    ([Client.SendEventsCall (Client.queue c)
        (Client.sendEvents c (Client.queue c))],
     Client.set_queue [] c).
Proof.
  unfold Client.flush. destruct (Client.queue c) as [|e q] eqn:Hq; [congruence|].
  reflexivity.
Qed.

Lemma client_flush_state (c : Client.t) :
  Client.queue (snd (Client.flush c)) = [] /\
  Client.stopCh_closed (snd (Client.flush c)) = Client.stopCh_closed c /\
  Client.worker_running (snd (Client.flush c)) = Client.worker_running c.
Proof.
  destruct (Client.queue c) as [|e q] eqn:Hq.
  - rewrite client_flush_empty by assumption. now repeat split.
  - rewrite client_flush_nonempty by congruence. now repeat split.
Qed.

Lemma client_wg_Wait_returns (ticks : nat) (c : Client.t) :
  Client.worker_running c = true ->
  Client.stopCh_closed c = true ->
  exists r, Client.wg_Wait ticks c = Some r.
Proof.
  revert c; induction ticks as [|ticks IH]; intros c Hw Hc; simpl;
    unfold Client.flushWorker_step; rewrite Hw.
  - rewrite Hc. destruct (Client.flush c) as [tr c1]. simpl. now eexists.
  - destruct (client_flush_state c) as (_ & Hc1 & Hw1).
    destruct (Client.flush c) as [tr c1]. simpl in *.
    destruct (IH c1) as [[tr2 c2] Hr]; [congruence | congruence |].
    rewrite Hr. now eexists.
Qed.

Lemma client_wg_Wait_stopCh (ticks : nat) (c : Client.t)
  (tr : list Client.effect) (c' : Client.t) :
  Client.wg_Wait ticks c = Some (tr, c') ->
  Client.stopCh_closed c' = Client.stopCh_closed c.
Proof.
  revert c tr; induction ticks as [|ticks IH]; intros c tr; simpl;
    destruct (Client.worker_running c) eqn:Hw;
    try (intros H; inversion H; subst; reflexivity);
    unfold Client.flushWorker_step; rewrite Hw;
    destruct (client_flush_state c) as (_ & Hc1 & _);
    destruct (Client.flush c) as [tr1 c1]; simpl in Hc1.
  - destruct (Client.stopCh_closed c); [|discriminate]. simpl.
    intros H; inversion H; subst. simpl. exact Hc1.
  - destruct (Client.wg_Wait ticks c1) as [[tr2 c2]|] eqn:Hwait; [|discriminate].
    intros H; inversion H; subst.
    rewrite (IH _ _ Hwait). exact Hc1.
Qed.

(** ** The scheduler *)

(** On a logger that has been running, Stop returns. *)
Lemma Stop_after_run_returns (d : DB.t) (ops : list Logger.op) (ticks : nat) :
  exists r,
    Logger.Stop ticks (snd (Logger.run ops (Logger.NewLogger d)))
    = Some (Returned r).
Proof.
  pose proof (run_accounts ops (Logger.NewLogger d)) as Hrun.
  destruct (Logger.run ops (Logger.NewLogger d)) as [tr l].
  cbn [fst snd] in Hrun |- *.
  destruct Hrun as (_ & _ & _ & _ & Hc & Hw). simpl in Hc, Hw.
  destruct (Stop_returns ticks l Hc Hw) as (tr' & l' & Hstop & _).
  rewrite Hstop. now eexists.
Qed.




(** C10 - Stop is one-shot.  A Stop that returned leaves the stop channel
    closed, so every later Stop on the same instance panics (close of a
    closed channel); nothing else guards a stopped instance.  The first
    Stop after creation (and, for the logger, after any emits, flushes
    and periods) returns without panic.  This holds for the Logger and
    for the Client. *)
Theorem second_Stop_panics :
  (forall ticks l tr l',
      Logger.Stop ticks l = Some (Returned (tr, l')) ->
      forall ticks', Logger.Stop ticks' l' = Some Panic) /\
  (forall d ops ticks,
      exists r, Logger.Stop ticks (snd (Logger.run ops (Logger.NewLogger d)))
                = Some (Returned r)) /\
  (forall ticks c tr c',
      Client.Stop ticks c = Some (Returned (tr, c')) ->
      forall ticks', Client.Stop ticks' c' = Some Panic) /\
  (forall server ticks,
      exists r, Client.Stop ticks (Client.newHTTPClient server)
                = Some (Returned r)).
Proof.
  split; [|split; [|split]].
  - intros ticks l tr l' H ticks'.
    apply Stop_closes in H as [Hc _].
    unfold Logger.Stop. now rewrite Hc.
  - intros d ops ticks.
    apply Stop_after_run_returns.
  - intros ticks c tr c' H ticks'.
    unfold Client.Stop in H.
    destruct (Client.stopCh_closed c); [discriminate|].
    destruct (Client.wg_Wait ticks (Client.close_stopCh c)) as [[tr1 c1]|] eqn:Hw;
      [|discriminate].
    inversion H; subst.
    apply client_wg_Wait_stopCh in Hw. simpl in Hw.
    unfold Client.Stop. now rewrite Hw.
  - intros server ticks. unfold Client.Stop. simpl.
    destruct (client_wg_Wait_returns ticks
                (Client.close_stopCh (Client.newHTTPClient server))
                eq_refl eq_refl) as [r Hr].
    rewrite Hr. now eexists.
Qed.

Lemma second_Stop_panics_witness :
  Logger.Stop 0 (Logger.wg_Done (Logger.close_stopCh (Logger.NewLogger DB.Init)))
  = Some Panic.
Proof.
  apply (proj1 second_Stop_panics 0 (Logger.NewLogger DB.Init) []).
  reflexivity.
Defined.



(** C7 (as the code has it) - After Stop.  Once Stop has returned, the
    worker goroutine has returned: no case of its select can be taken any
    more, so no period causes a drain.  A manual Flush is not guarded by
    the stopped state: directly after Stop it finds the queue empty and
    makes no sink call, but an event emitted after Stop is still queued,
    and the next Flush hands it to the store. *)
Theorem after_Stop_only_Flush_drains (ticks : nat) (l : Logger.t)
  (tr : list Logger.effect) (l' : Logger.t) :
  Logger.worker_running l = true ->
  Logger.Stop ticks l = Some (Returned (tr, l')) ->
  (forall c, Logger.flushWorker_step c l' = None) /\
  Logger.step Logger.OpTick l' = ([], l') /\
  Logger.Flush l' = ([], l') /\
  (forall now e,
      Logger.Flush (snd (Logger.Emit now e l'))
      = ([Logger.InsertEventsCall [Logger.stamp now e]
            (fst (DB.InsertEvents (Logger.db l') [Logger.stamp now e]))],
         Logger.set_db
           (snd (DB.InsertEvents (Logger.db l') [Logger.stamp now e])) l')).
Proof.
  intros Hw Hstop.
  destruct (Stop_closes _ _ Hstop) as [Hc' Hw'].
  assert (Hq : Logger.queue l' = []).
  { unfold Logger.Stop in Hstop.
    destruct (Logger.stopCh_closed l) eqn:Hc; [discriminate|].
    destruct (wg_Wait_returns ticks (Logger.close_stopCh l) Hw eq_refl)
      as (tr1 & l1 & Hwait & _ & Hq1).
    rewrite Hwait in Hstop. inversion Hstop; subst. exact Hq1. }
  split; [|split; [|split]].
  - intros c. unfold Logger.flushWorker_step. now rewrite Hw'.
  - simpl. unfold Logger.flushWorker_step. now rewrite Hw'.
  - now apply flush_empty.
  - intros now e. unfold Logger.Flush.
    rewrite flush_nonempty by (simpl; rewrite Hq; discriminate).
    simpl. rewrite Hq. simpl. f_equal.
    unfold Logger.set_db, Logger.set_queue. simpl. now rewrite Hq.
Qed.

Lemma after_Stop_only_Flush_drains_witness :
  let l' := Logger.wg_Done (Logger.close_stopCh (Logger.NewLogger DB.Init)) in
  Logger.flushWorker_step TickerC l' = None /\ Logger.Flush l' = ([], l').
Proof.
  intros l'.
  destruct (@after_Stop_only_Flush_drains 0 (Logger.NewLogger DB.Init) [] l'
              eq_refl eq_refl) as (Hworker & _ & Hflush & _).
  split; [apply Hworker | exact Hflush].
Defined.

(** C7, as stated, fails: stop, then emit, then flush - the flush after
    the stop makes a sink call and the event is stored. *)
Lemma Flush_after_Stop_drains :
  let stopped := Logger.wg_Done (Logger.close_stopCh (Logger.NewLogger DB.Init)) in
  Logger.Stop 0 (Logger.NewLogger DB.Init) = Some (Returned ([], stopped)) /\
  let l := snd (Logger.Emit 7 Examples.login stopped) in
  fst (Logger.Flush l)
  = [Logger.InsertEventsCall [Logger.stamp 7 Examples.login] None] /\
  DB.GetEvents (Logger.db (snd (Logger.Flush l))) 10 0
  = ([Logger.stamp 7 Examples.login], 1%Z, None).
Proof. repeat split. Qed.

(** ** Emit, flush, read *)






(** ** Server: the check on the key *)

Lemma handleEvents_loop_queue (now : nat -> Z) (events : list Event) :
  forall i l,
  exists added,
    Logger.queue (snd (Server.handleEvents_loop now i events l))
    = Logger.queue l ++ added /\
    Forall (fun e => Key e <> EmptyString) added /\
    (Exists (fun e => Key e = EmptyString) events ->
     fst (Server.handleEvents_loop now i events l) = Server.StatusBadRequest).
Proof.
  induction events as [|e events IH]; intros i l; simpl.
  - exists []. rewrite app_nil_r. repeat split; [constructor|].
    intros H; inversion H.
  - destruct (String.eqb (Key e) EmptyString) eqn:Hk.
    + exists []. simpl. rewrite app_nil_r. repeat split. constructor.
    + apply String.eqb_neq in Hk.
      destruct (IH (S i)
                  (Logger.set_queue (Logger.queue l ++ [Logger.stamp (now i) e]) l))
        as (added & Hq & Hkeys & Hcode).
      exists (Logger.stamp (now i) e :: added).
      split; [|split].
      * rewrite Hq. simpl. now rewrite <- app_assoc.
      * constructor; [now rewrite stamp_Key | exact Hkeys].
      * intros H. apply Hcode. inversion H; subst; [contradiction | assumption].
Qed.

Lemma handleBatch_decode_keys (raw : list (option Event)) :
  forall acc events,
    Server.handleBatch_decode raw acc = Some events ->
    Forall (fun e => Key e <> EmptyString) acc ->
    Forall (fun e => Key e <> EmptyString) events /\
    Forall (fun r => exists e, r = Some e /\ Key e <> EmptyString) raw.
Proof.
  induction raw as [|[e|] raw IH]; intros acc events; simpl.
  - intros H Hacc. inversion H; subst. split; [assumption | constructor].
  - destruct (String.eqb (Key e) EmptyString) eqn:Hk; [discriminate|].
    apply String.eqb_neq in Hk. intros H Hacc.
    destruct (IH _ _ H) as [Hev Hraw].
    + apply Forall_app. split; [assumption | now constructor].
    + split; [assumption|]. constructor; [now exists e | assumption].
  - discriminate.
Qed.

Lemma handleBatch_emit_queue (now : nat -> Z) (events : list Event) :
  forall i l,
    Forall (fun e => Key e <> EmptyString) events ->
    exists added,
      Logger.queue (snd (Server.handleBatch_emit now i events l))
      = Logger.queue l ++ added /\
      Forall (fun e => Key e <> EmptyString) added.
Proof.
  induction events as [|e events IH]; intros i l Hkeys; simpl.
  - exists []. rewrite app_nil_r. split; [reflexivity | constructor].
  - inversion Hkeys as [|e' events' He Hrest]; subst.
    destruct (IH (S i)
                (Logger.set_queue (Logger.queue l ++ [Logger.stamp (now i) e]) l)
                Hrest) as (added & Hq & Hadded).
    exists (Logger.stamp (now i) e :: added). split.
    + rewrite Hq. simpl. now rewrite <- app_assoc.
    + constructor; [now rewrite stamp_Key | exact Hadded].
Qed.

(** C8 (as the code has it) - Empty-key validation.  The check on the key
    is made by the HTTP handlers, not by Emit.  Logger.Emit and
    Client.Emit return no error for any event and append it to the queue,
    whatever its key.  handleEvents and handleBatch never append an event
    with an empty key, and a request that holds one is answered with
    status 400; handleBatch then queues nothing at all. *)
Theorem empty_key_rejected_by_handlers :
  (forall now e l,
      Logger.Emit now e l
      = (None, Logger.set_queue (Logger.queue l ++ [Logger.stamp now e]) l)) /\
  (forall now e c,
      Client.Emit now e c
      = (None, Client.set_queue (Client.queue c ++ [Logger.stamp now e]) c)) /\
  (forall now body l,
      exists added,
        Logger.queue (snd (Server.handleEvents now body l))
        = Logger.queue l ++ added /\
        Forall (fun e => Key e <> EmptyString) added) /\
  (forall now events l,
      Exists (fun e => Key e = EmptyString) events ->
      fst (Server.handleEvents now (Some events) l) = Server.StatusBadRequest) /\
  (forall now body l,
      exists added,
        Logger.queue (snd (Server.handleBatch now body l))
        = Logger.queue l ++ added /\
        Forall (fun e => Key e <> EmptyString) added) /\
  (forall now raw l,
      Exists (fun r => exists e, r = Some e /\ Key e = EmptyString) raw ->
      Server.handleBatch now (Some raw) l = (Server.StatusBadRequest, l)).
Proof.
  split; [|split; [|split; [|split; [|split]]]].
  - reflexivity.
  - reflexivity.
  - intros now [events|] l; simpl.
    + destruct (handleEvents_loop_queue now events 0 l) as (added & Hq & Hk & _).
      now exists added.
    + exists []. rewrite app_nil_r. split; [reflexivity | constructor].
  - intros now events l H. simpl.
    destruct (handleEvents_loop_queue now events 0 l) as (added & _ & _ & Hcode).
    now apply Hcode.
  - intros now [raw|] l; simpl.
    + destruct (Server.handleBatch_decode raw []) as [events|] eqn:Hd.
      * destruct (@handleBatch_decode_keys raw [] events Hd (Forall_nil _)) as [Hev _].
        apply (@handleBatch_emit_queue now events 0 l Hev).
      * exists []. rewrite app_nil_r. split; [reflexivity | constructor].
    + exists []. rewrite app_nil_r. split; [reflexivity | constructor].
  - intros now raw l H. simpl.
    destruct (Server.handleBatch_decode raw []) as [events|] eqn:Hd;
      [|reflexivity].
    destruct (@handleBatch_decode_keys raw [] events Hd (Forall_nil _)) as [_ Hraw].
    exfalso. apply Exists_exists in H as (r & Hin & e & -> & Hk).
    rewrite Forall_forall in Hraw.
    destruct (Hraw _ Hin) as (e' & He' & Hk'). inversion He'; subst. contradiction.
Qed.

Lemma empty_key_rejected_by_handlers_witness :
  Server.handleBatch Examples.clock
    (Some [Some Examples.login; Some Examples.keyless])
    (Logger.NewLogger DB.Init)
  = (Server.StatusBadRequest, Logger.NewLogger DB.Init) /\
  fst (Server.handleEvents Examples.clock
         (Some [Examples.login; Examples.keyless])
         (Logger.NewLogger DB.Init))
  = Server.StatusBadRequest.
Proof.
  destruct empty_key_rejected_by_handlers as (_ & _ & _ & Hevents & _ & Hbatch).
  split.
  - apply Hbatch. right. left. now exists Examples.keyless.
  - apply Hevents. right. left. reflexivity.
Defined.

(** C8, as stated, fails: Emit of an event with an empty key returns no
    error and the event is appended to the queue, for the logger and for
    the client. *)
Lemma Emit_accepts_empty_key :
  Key Examples.keyless = EmptyString /\
  fst (Logger.Emit 7 Examples.keyless (Logger.NewLogger DB.Init)) = None /\
  Logger.queue (snd (Logger.Emit 7 Examples.keyless (Logger.NewLogger DB.Init)))
  = [Logger.stamp 7 Examples.keyless] /\
  fst (Client.Emit 7 Examples.keyless (Client.newHTTPClient (fun _ => Some 200%Z)))
  = None /\
  Client.queue
    (snd (Client.Emit 7 Examples.keyless
            (Client.newHTTPClient (fun _ => Some 200%Z))))
  = [Logger.stamp 7 Examples.keyless].
Proof. repeat split. Qed.

(* ================================================================== *)
(** * Further properties of the store *)

(** X1 - The table is append-only under InsertEvents.  Whatever the
    outcome, the rows present before the call are still there, in the
    same order, in front of the rows added; a call that fails adds
    nothing, a call that succeeds adds one row per event of the batch;
    the events stored before still read back the same. *)
Theorem InsertEvents_append_only (db : DB.t) (events : list Event) :
  exists added,
    DB.rows (snd (DB.InsertEvents db events)) = DB.rows db ++ added /\
    DB.stored (snd (DB.InsertEvents db events))
    = DB.stored db ++ DB.events_of added /\
    (fst (DB.InsertEvents db events) = None ->
     List.length added = List.length events) /\
    (fst (DB.InsertEvents db events) <> None -> added = []).
Proof.
  destruct (InsertEvents_cases db events) as [[Hok Heq]|[_ [x Heq]]];
    rewrite Heq; simpl.
  - exists (DB.rows_of events). split; [reflexivity|].
    split; [apply events_of_app|].
    split; [|congruence].
    intros _. clear Heq.
    unfold DB.rows_of.
    induction events as [|e events IH]; simpl in *; [reflexivity|].
    apply andb_true_iff in Hok as [He Hrest].
    apply insert_ok_row_of in He as (r & Hr & _). rewrite Hr. simpl.
    now rewrite IH.
  - exists []. rewrite !app_nil_r.
    split; [reflexivity|]. split; [reflexivity|].
    split; [discriminate | reflexivity].
Qed.

Lemma insert_ok_exec_err (db db' : DB.t) (e : Event) :
  DB.exec_err db' = DB.exec_err db ->
  DB.insert_ok db' e = DB.insert_ok db e.
Proof. unfold DB.insert_ok. now intros ->. Qed.

Lemma forallb_insert_ok_exec_err (db db' : DB.t) (events : list Event) :
  DB.exec_err db' = DB.exec_err db ->
  forallb (DB.insert_ok db') events = forallb (DB.insert_ok db) events.
Proof.
  intros H. induction events as [|e events IH]; simpl; [reflexivity|].
  now rewrite IH, (insert_ok_exec_err _ _ _ H).
Qed.

(** X2 - Batches compose.  Inserting the batch [es1 ++ es2] succeeds
    exactly when inserting [es1] and then [es2] both succeed, and both
    ways end in the same store. *)
Theorem InsertEvents_app (db db2 : DB.t) (es1 es2 : list Event) :
  DB.InsertEvents db (es1 ++ es2) = (None, db2) <->
  exists db1,
    DB.InsertEvents db es1 = (None, db1) /\
    DB.InsertEvents db1 es2 = (None, db2).
Proof.
  split.
  - intros H.
    destruct (InsertEvents_cases db (es1 ++ es2)) as [[Hok Heq]|[_ [x Heq]]];
      rewrite Heq in H; inversion H; subst; clear H.
    rewrite forallb_app in Hok. apply andb_true_iff in Hok as [Hok1 Hok2].
    destruct (InsertEvents_cases db es1) as [[_ Heq1]|[Hno _]]; [|congruence].
    eexists. split; [exact Heq1|].
    match goal with |- DB.InsertEvents ?d _ = _ => set (db1 := d) end.
    destruct (InsertEvents_cases db1 es2) as [[_ Heq2]|[Hno _]].
    + rewrite Heq2. unfold db1. simpl.
      now rewrite rows_of_app, app_assoc.
    + rewrite (forallb_insert_ok_exec_err db db1 es2 eq_refl) in Hno.
      congruence.
  - intros (db1 & H1 & H2).
    destruct (InsertEvents_cases db es1) as [[Hok1 Heq1]|[_ [x Heq1]]];
      rewrite Heq1 in H1; inversion H1; subst db1; clear H1.
    match type of H2 with DB.InsertEvents ?d _ = _ => set (db1 := d) in * end.
    destruct (InsertEvents_cases db1 es2) as [[Hok2 Heq2]|[_ [x Heq2]]];
      rewrite Heq2 in H2; inversion H2; subst db2; clear H2.
    rewrite (forallb_insert_ok_exec_err db db1 es2 eq_refl) in Hok2.
    destruct (InsertEvents_cases db (es1 ++ es2)) as [[_ Heq]|[Hno _]].
    + rewrite Heq. unfold db1. simpl.
      now rewrite rows_of_app, app_assoc.
    + rewrite forallb_app, Hok1, Hok2 in Hno. discriminate.
Qed.



(** X4 - Size of a page.  On a store of [T] readable rows, for
    [limit >= 0] and [offset >= 0], GetEvents returns
    [min(limit, T - offset)] events (none when [offset >= T]), so never
    more than [limit]. *)
Theorem GetEvents_page_length (db : DB.t) (limit offset : Z) :
  DB.readable (DB.rows db) ->
  (0 <= limit)%Z -> (0 <= offset)%Z ->
  List.length (DB.page db limit offset)
  = Nat.min (Z.to_nat limit) (List.length (DB.rows db) - Z.to_nat offset).
Proof.
  intros Hr Hl Ho. unfold DB.page.
  rewrite (GetEvents_readable _ _ _ Hr). simpl.
  rewrite sql_limit_offset_nat by assumption.
  rewrite length_firstn, length_skipn.
  rewrite events_of_length by now apply order_by_readable.
  now rewrite order_by_length.
Qed.

Lemma GetEvents_page_length_witness :
  List.length (DB.page Examples.two_rows 5 1) = 1.
Proof.
  rewrite GetEvents_page_length.
  - reflexivity.
  - repeat constructor; discriminate.
  - lia.
  - lia.
Defined.

Lemma window_split {A : Type} (limit offset : Z) (l : list A) :
  exists before after,
    l = before ++ DB.sql_limit_offset limit offset l ++ after.
Proof.
  unfold DB.sql_limit_offset.
  set (o := Z.to_nat (Z.max 0 offset)).
  exists (firstn o l).
  destruct (limit <? 0)%Z.
  - exists []. now rewrite app_nil_r, firstn_skipn.
  - exists (skipn (Z.to_nat limit) (skipn o l)).
    now rewrite !firstn_skipn.
Qed.

(** X5 - A page holds stored events only.  When GetEvents returns
    without error, its events are among the stored events, each taken at
    most as often as it is stored: together with some other events they
    make up the stored events. *)
Theorem GetEvents_page_of_stored (db : DB.t) (limit offset : Z)
  (events : list Event) (total : Z) :
  DB.GetEvents db limit offset = (events, total, None) ->
  exists others, Permutation (events ++ others) (DB.stored db).
Proof.
  unfold DB.GetEvents.
  destruct (mapM DB.scan _) as [es|] eqn:Hm; intros H; inversion H; subst.
  apply mapM_scan_inv in Hm as [_ ->].
  destruct (window_split limit offset (DB.order_by_timestamp_desc (DB.rows db)))
    as (before & after & Hsplit).
  exists (DB.events_of after ++ DB.events_of before).
  unfold DB.stored.
  rewrite <- (events_of_Permutation (order_by_Permutation (DB.rows db))).
  rewrite Hsplit at 2. rewrite !events_of_app.
  rewrite app_assoc. apply Permutation_app_comm.
Qed.

Lemma GetEvents_page_of_stored_witness :
  exists others,
    Permutation ([Logger.stamp 20 Examples.logout] ++ others)
      (DB.stored Examples.two_rows).
Proof.
  apply (@GetEvents_page_of_stored Examples.two_rows 1 0 _ 2%Z).
  reflexivity.
Defined.

(** X6 - Unreadable rows.  GetEvents decodes the rows of the requested
    window only.  If each of them can be decoded, the call returns their
    events with the full row count; if one of them cannot, the call
    returns no events, a total of 0 and an error.  Rows outside the
    window play no part. *)
Theorem GetEvents_unreadable_row (db : DB.t) (limit offset : Z) :
  let window :=
    DB.sql_limit_offset limit offset (DB.order_by_timestamp_desc (DB.rows db)) in
  (DB.readable window ->
   DB.GetEvents db limit offset
   = (DB.events_of window, Z.of_nat (List.length (DB.rows db)), None)) /\
  (~ DB.readable window ->
   DB.GetEvents db limit offset = ([], 0%Z, Some UnmarshalError)).
Proof.
  intros window. unfold DB.GetEvents. fold window. split.
  - intros Hr. now rewrite (mapM_scan_readable Hr).
  - intros Hn. destruct (mapM DB.scan window) as [es|] eqn:Hm; [|reflexivity].
    apply mapM_scan_inv in Hm as [Hr _]. contradiction.
Qed.

Lemma GetEvents_unreadable_row_witness :
  DB.GetEvents Examples.foreign_row 1 0
  = ([ {| Key := "test_event_2"; Timestamp := 20;
          Data := Some [("user"%string, Json.Str "bob")] |} ], 2%Z, None) /\
  DB.GetEvents Examples.foreign_row 2 0 = ([], 0%Z, Some UnmarshalError).
Proof.
  split.
  - apply (proj1 (GetEvents_unreadable_row Examples.foreign_row 1 0)).
    repeat constructor. discriminate.
  - apply (proj2 (GetEvents_unreadable_row Examples.foreign_row 2 0)).
    intros H. inversion H as [|r rs Hgood Hrest]; subst.
    inversion Hrest as [|r' rs' Hbad _]; subst.
    apply Hbad. reflexivity.
Defined.

Lemma rows_desc_unique (l1 l2 : list DB.Row) :
  DB.rows_desc l1 -> DB.rows_desc l2 ->
  Permutation l1 l2 ->
  NoDup (map DB.timestamp l1) ->
  l1 = l2.
Proof.
  unfold DB.rows_desc. intros H1; revert l2.
  induction H1 as [|a l1 Hs1 IH Ha]; intros l2 H2 Hp Hnd.
  - now apply Permutation_nil in Hp.
  - destruct l2 as [|b l2].
    { apply Permutation_sym, Permutation_nil in Hp. discriminate. }
    inversion H2 as [|b' l2' Hs2 Hb]; subst.
    inversion Hnd as [|t ts Hnotin Hnd']; subst.
    assert (Hab : a = b).
    { assert (Hin_a : In a (b :: l2))
        by (eapply Permutation_in; [exact Hp | now left]).
      destruct Hin_a as [->|Hin_a]; [reflexivity|].
      assert (Hin_b : In b (a :: l1))
        by (eapply Permutation_in; [symmetry; exact Hp | now left]).
      destruct Hin_b as [->|Hin_b]; [reflexivity|].
      exfalso. apply Hnotin.
      rewrite Forall_forall in Ha, Hb.
      specialize (Ha _ Hin_b). specialize (Hb _ Hin_a).
      replace (DB.timestamp a) with (DB.timestamp b) by lia.
      now apply in_map. }
    subst b. f_equal.
    apply IH; [assumption | | assumption].
    now apply Permutation_cons_inv in Hp.
Qed.

(** X7 - The order of insertion does not show.  Two stores that hold the
    same rows, inserted in different orders, answer every GetEvents call
    alike, provided no two rows have the same timestamp. *)
Theorem GetEvents_insertion_order (db1 db2 : DB.t) (limit offset : Z) :
  Permutation (DB.rows db1) (DB.rows db2) ->
  NoDup (map DB.timestamp (DB.rows db1)) ->
  DB.GetEvents db1 limit offset = DB.GetEvents db2 limit offset.
Proof.
  intros Hp Hnd. unfold DB.GetEvents.
  rewrite (Permutation_length Hp).
  replace (DB.order_by_timestamp_desc (DB.rows db2))
    with (DB.order_by_timestamp_desc (DB.rows db1)); [reflexivity|].
  apply rows_desc_unique; try apply order_by_sorted.
  - rewrite !order_by_Permutation. exact Hp.
  - eapply Permutation_NoDup; [|exact Hnd].
    apply Permutation_map. symmetry. apply order_by_Permutation.
Qed.

Lemma GetEvents_insertion_order_witness :
  DB.GetEvents
    (snd (DB.InsertEvents DB.Init
            [Logger.stamp 20 Examples.logout; Logger.stamp 10 Examples.login]))
    1 0
  = DB.GetEvents Examples.two_rows 1 0.
Proof.
  apply GetEvents_insertion_order.
  - apply perm_swap.
  - repeat constructor; simpl; intuition discriminate.
Defined.

(* ================================================================== *)
(** * Further properties of the logger *)

(** X8 - No event is lost or duplicated between Emit and the drains.
    From any logger, after any sequence of emits, manual flushes and
    elapsed periods, the events handed to the sink so far followed by the
    events still queued are exactly the events that were queued at the
    start followed by the emitted ones, in emission order; and such a
    sequence leaves the stop channel and the worker as they were. *)
Theorem events_handed_or_queued (ops : list Logger.op) (l : Logger.t) :
  let tr := fst (Logger.run ops l) in
  let l' := snd (Logger.run ops l) in
  Logger.handed tr ++ Logger.queue l' = Logger.queue l ++ Logger.emitted ops /\
  Logger.stopCh_closed l' = Logger.stopCh_closed l /\
  Logger.worker_running l' = Logger.worker_running l.
Proof.
  intros tr l'.
  destruct (run_accounts ops l) as (Hhand & _ & _ & _ & Hc & Hw).
  split; [exact Hhand|]. split; [exact Hc | exact Hw].
Qed.




(** X10 - A batch whose sink call fails is dropped.  When InsertEvents
    returns an error for the queued events, flush still empties the
    queue and leaves the store as it was: the events are neither stored
    nor queued again, and whatever happens afterwards concerns only
    events emitted afterwards.  The client's flush likewise empties its
    queue when sendEvents returns an error. *)
Theorem flush_drops_failed_batch :
  (forall l x,
      Logger.queue l <> [] ->
      fst (DB.InsertEvents (Logger.db l) (Logger.queue l)) = Some x ->
      Logger.flush l
      = ([Logger.InsertEventsCall (Logger.queue l) (Some x)],
         Logger.set_queue [] l) /\
      forall ops,
        Logger.handed (fst (Logger.run ops (Logger.set_queue [] l)))
          ++ Logger.queue (snd (Logger.run ops (Logger.set_queue [] l)))
        = Logger.emitted ops) /\
  (forall c x,
      Client.queue c <> [] ->
      Client.sendEvents c (Client.queue c) = Some x ->
      Client.flush c
      = ([Client.SendEventsCall (Client.queue c) (Some x)],
         Client.set_queue [] c)).
Proof.
  split.
  - intros l x Hne Hfail. split.
    + rewrite flush_nonempty by exact Hne. rewrite Hfail. f_equal.
      destruct (InsertEvents_cases (Logger.db l) (Logger.queue l))
        as [[_ Heq]|[_ [y Heq]]]; rewrite Heq in Hfail |- *;
        [discriminate|].
      simpl. now destruct l.
    + intros ops.
      exact (proj1 (run_accounts ops (Logger.set_queue [] l))).
  - intros c x Hne Hfail.
    rewrite client_flush_nonempty by exact Hne.
    unfold Client.sendEvents in *. simpl. now rewrite Hfail.
Qed.

Lemma flush_drops_failed_batch_witness :
  let l := Logger.emit_all [(10, Examples.login); (20, Examples.unserializable)]%Z
             (Logger.NewLogger DB.Init) in
  Logger.flush l
  = ([Logger.InsertEventsCall (Logger.queue l) (Some MarshalError)],
     Logger.set_queue [] l).
Proof.
  intros l.
  apply (proj1 flush_drops_failed_batch l MarshalError).
  - discriminate.
  - reflexivity.
Defined.

Lemma wg_Wait_ticks (ticks : nat) (l : Logger.t) :
  Logger.wg_Wait ticks l = Logger.wg_Wait 0 l.
Proof.
  revert l; induction ticks as [|ticks IH]; intros l; [reflexivity|].
  simpl. destruct (Logger.worker_running l) eqn:Hw; [|reflexivity].
  unfold Logger.flushWorker_step. rewrite Hw.
  destruct (flush_accounts l) as [(_ & _ & _ & _ & Hc & Hw') Hq].
  pose proof (flush_empty (snd (Logger.flush l)) Hq) as Hagain.
  destruct (Logger.flush l) as [tr1 l1]. cbn [fst snd] in *.
  rewrite IH. simpl. rewrite Hw'. unfold Logger.flushWorker_step.
  rewrite Hw', Hw, Hc, Hagain.
  destruct (Logger.stopCh_closed l); [|reflexivity].
  now rewrite app_nil_r.
Qed.

Lemma client_wg_Wait_ticks (ticks : nat) (c : Client.t) :
  Client.wg_Wait ticks c = Client.wg_Wait 0 c.
Proof.
  revert c; induction ticks as [|ticks IH]; intros c; [reflexivity|].
  simpl. destruct (Client.worker_running c) eqn:Hw; [|reflexivity].
  unfold Client.flushWorker_step. rewrite Hw.
  destruct (client_flush_state c) as (Hq & Hc & Hw').
  pose proof (client_flush_empty (snd (Client.flush c)) Hq) as Hagain.
  destruct (Client.flush c) as [tr1 c1]. cbn [fst snd] in *.
  rewrite IH. simpl. rewrite Hw'. unfold Client.flushWorker_step.
  rewrite Hw', Hw, Hc, Hagain.
  destruct (Client.stopCh_closed c); [|reflexivity].
  now rewrite app_nil_r.
Qed.

(** X11 - The outcome of Stop does not depend on the race between the
    ticker and the stop channel.  However many due ticks the worker's
    select serves before it takes the stop case, Stop makes the same
    sink calls and ends in the same state: the first drain empties the
    queue and the later ones find nothing.  This holds for the Logger
    and for the Client. *)
Theorem Stop_independent_of_ticks :
  (forall ticks l, Logger.Stop ticks l = Logger.Stop 0 l) /\
  (forall ticks c, Client.Stop ticks c = Client.Stop 0 c).
Proof.
  split.
  - intros ticks l. unfold Logger.Stop. now rewrite wg_Wait_ticks.
  - intros ticks c. unfold Client.Stop. now rewrite client_wg_Wait_ticks.
Qed.

(** X12 - Stored timestamps are set.  If no reading of the clock is the
    zero time, then from a new logger, at any time, no event handed to
    the sink and no event still queued has a zero timestamp, whether the
    timestamp came from the caller or from the clock. *)
Theorem timestamps_are_set (d : DB.t) (ops : list Logger.op) :
  Forall (fun o => match o with
                   | Logger.OpEmit now _ => now <> 0%Z
                   | _ => True
                   end) ops ->
  Forall (fun e => IsZero (Timestamp e) = false)
    (Logger.handed (fst (Logger.run ops (Logger.NewLogger d)))
       ++ Logger.queue (snd (Logger.run ops (Logger.NewLogger d)))).
Proof.
  intros Hclock.
  rewrite (proj1 (run_accounts ops (Logger.NewLogger d))). simpl.
  unfold Logger.emitted.
  induction Hclock as [|o ops Ho _ IH]; simpl; [constructor|].
  apply Forall_app. split; [|exact IH].
  destruct o as [now e| |]; try constructor; [|constructor].
  unfold Logger.stamp. destruct (IsZero (Timestamp e)) eqn:Hz; [|exact Hz].
  simpl. unfold IsZero. now apply Z.eqb_neq.
Qed.

Lemma timestamps_are_set_witness :
  Forall (fun e => IsZero (Timestamp e) = false)
    (Logger.handed
       (fst (Logger.run [Logger.OpEmit 10 Examples.login; Logger.OpFlush]
               (Logger.NewLogger DB.Init)))
     ++ Logger.queue
          (snd (Logger.run [Logger.OpEmit 10 Examples.login; Logger.OpFlush]
                  (Logger.NewLogger DB.Init)))).
Proof.
  apply timestamps_are_set.
  repeat constructor. discriminate.
Defined.

(* ================================================================== *)
(** * Further properties of the client and of the handlers *)






Lemma set_queue_set_queue (q q' : list Event) (l : Logger.t) :
  Logger.set_queue q (Logger.set_queue q' l) = Logger.set_queue q l.
Proof. reflexivity. Qed.

Lemma set_queue_same (l : Logger.t) : Logger.set_queue (Logger.queue l) l = l.
Proof. now destruct l. Qed.

Lemma queued_cons (now : nat -> Z) (i : nat) (e : Event) (events : list Event) :
  Server.queued now i (e :: events)
  = Logger.stamp (now i) e :: Server.queued now (S i) events.
Proof. reflexivity. Qed.

Lemma handleEvents_loop_accepts (now : nat -> Z) (pre rest : list Event) :
  forall i l,
    Forall (fun e => Key e <> EmptyString) pre ->
    Server.handleEvents_loop now i (pre ++ rest) l
    = Server.handleEvents_loop now (i + List.length pre) rest
        (Logger.set_queue (Logger.queue l ++ Server.queued now i pre) l).
Proof.
  induction pre as [|e pre IH]; intros i l Hkeys.
  - simpl. rewrite Nat.add_0_r. unfold Server.queued. simpl.
    now rewrite app_nil_r, set_queue_same.
  - inversion Hkeys as [|e' pre' He Hpre]; subst.
    simpl. apply String.eqb_neq in He. rewrite He.
    rewrite (IH (S i) _ Hpre), queued_cons.
    rewrite set_queue_set_queue. simpl.
    rewrite <- app_assoc. simpl.
    now replace (S (i + List.length pre)) with (i + S (List.length pre)) by lia.
Qed.

(** X15 - handleEvents accepts a request all of whose events have a key:
    it answers 200 and appends every event, in request order, to the
    logger's queue, an event without a timestamp being stamped with the
    clock reading of its Emit. *)
Theorem handleEvents_accepts (now : nat -> Z) (events : list Event)
  (l : Logger.t) :
  Forall (fun e => Key e <> EmptyString) events ->
  Server.handleEvents now (Some events) l
  = (Server.StatusOK,
     Logger.set_queue (Logger.queue l ++ Server.queued now 0 events) l).
Proof.
  intros Hkeys. simpl.
  rewrite <- (app_nil_r events) at 1.
  now rewrite (@handleEvents_loop_accepts now events [] 0 l Hkeys).
Qed.

Lemma handleEvents_accepts_witness :
  Server.handleEvents Examples.clock
    (Some [Examples.login; Logger.stamp 5 Examples.logout])
    (Logger.NewLogger DB.Init)
  = (Server.StatusOK,
     Logger.set_queue
       [Logger.stamp 100 Examples.login; Logger.stamp 5 Examples.logout]
       (Logger.NewLogger DB.Init)).
Proof.
  apply (@handleEvents_accepts Examples.clock
           [Examples.login; Logger.stamp 5 Examples.logout]
           (Logger.NewLogger DB.Init)).
  repeat constructor; discriminate.
Defined.

(** X16 - handleEvents stops at the first event without a key: it
    answers 400, and the events that precede it in the request are
    already queued; the keyless event and the events after it are not. *)
Theorem handleEvents_rejects_from_first_keyless (now : nat -> Z)
  (pre post : list Event) (bad : Event) (l : Logger.t) :
  Forall (fun e => Key e <> EmptyString) pre ->
  Key bad = EmptyString ->
  Server.handleEvents now (Some (pre ++ bad :: post)) l
  = (Server.StatusBadRequest,
     Logger.set_queue (Logger.queue l ++ Server.queued now 0 pre) l).
Proof.
  intros Hkeys Hbad. simpl.
  rewrite (@handleEvents_loop_accepts now pre (bad :: post) 0 l Hkeys).
  simpl. now rewrite Hbad.
Qed.

Lemma handleEvents_rejects_from_first_keyless_witness :
  Server.handleEvents Examples.clock
    (Some [Examples.login; Examples.keyless; Examples.logout])
    (Logger.NewLogger DB.Init)
  = (Server.StatusBadRequest,
     Logger.set_queue [Logger.stamp 100 Examples.login]
       (Logger.NewLogger DB.Init)).
Proof.
  apply (@handleEvents_rejects_from_first_keyless Examples.clock
           [Examples.login] [Examples.logout] Examples.keyless
           (Logger.NewLogger DB.Init)).
  - repeat constructor; discriminate.
  - reflexivity.
Defined.

Lemma handleBatch_decode_valid (raw : list (option Event)) :
  Forall Server.raw_valid raw ->
  forall acc,
    Server.handleBatch_decode raw acc = Some (acc ++ Server.raw_events raw).
Proof.
  induction 1 as [|r raw (e & -> & He) _ IH]; intros acc; simpl.
  - now rewrite app_nil_r.
  - apply String.eqb_neq in He. rewrite He, IH, <- app_assoc. reflexivity.
Qed.

Lemma handleBatch_decode_invalid (raw : list (option Event)) :
  Exists (fun r => r = None \/ exists e, r = Some e /\ Key e = EmptyString) raw ->
  forall acc, Server.handleBatch_decode raw acc = None.
Proof.
  induction 1 as [r raw [->|(e & -> & He)]|r raw _ IH]; intros acc; simpl.
  - reflexivity.
  - now rewrite He.
  - destruct r as [e|]; [|reflexivity].
    destruct (String.eqb (Key e) EmptyString); [reflexivity | apply IH].
Qed.

Lemma handleBatch_emit_all (now : nat -> Z) (events : list Event) :
  forall i l,
    Server.handleBatch_emit now i events l
    = (Server.StatusOK,
       Logger.set_queue (Logger.queue l ++ Server.queued now i events) l).
Proof.
  induction events as [|e events IH]; intros i l; simpl.
  - unfold Server.queued. simpl. now rewrite app_nil_r, set_queue_same.
  - rewrite IH, queued_cons, set_queue_set_queue. simpl.
    now rewrite <- app_assoc.
Qed.

(** X17 - handleBatch is all-or-nothing.  If every raw message decodes
    and has a key, it answers 200 and appends all the events, in request
    order, to the logger's queue; if the body does not bind, or one raw
    message does not decode or has no key, it answers 400 and queues
    nothing, not even the valid events that come first. *)
Theorem handleBatch_all_or_nothing (now : nat -> Z) (l : Logger.t) :
  Server.handleBatch now None l = (Server.StatusBadRequest, l) /\
  (forall raw,
      Forall Server.raw_valid raw ->
      Server.handleBatch now (Some raw) l
      = (Server.StatusOK,
         Logger.set_queue
           (Logger.queue l ++ Server.queued now 0 (Server.raw_events raw)) l)) /\
  (forall raw,
      Exists (fun r => r = None \/ exists e, r = Some e /\ Key e = EmptyString)
        raw ->
      Server.handleBatch now (Some raw) l = (Server.StatusBadRequest, l)).
Proof.
  split; [reflexivity|]. split.
  - intros raw Hvalid. simpl.
    rewrite (handleBatch_decode_valid Hvalid []). simpl.
    apply handleBatch_emit_all.
  - intros raw Hbad. simpl.
    now rewrite (handleBatch_decode_invalid Hbad []).
Qed.

Lemma handleBatch_all_or_nothing_witness :
  Server.handleBatch Examples.clock
    (Some [Some Examples.login; Some Examples.logout])
    (Logger.NewLogger DB.Init)
  = (Server.StatusOK,
     Logger.set_queue
       [Logger.stamp 100 Examples.login; Logger.stamp 101 Examples.logout]
       (Logger.NewLogger DB.Init)) /\
  Server.handleBatch Examples.clock
    (Some [Some Examples.login; None])
    (Logger.NewLogger DB.Init)
  = (Server.StatusBadRequest, Logger.NewLogger DB.Init).
Proof.
  destruct (handleBatch_all_or_nothing Examples.clock (Logger.NewLogger DB.Init))
    as (_ & Hok & Hbad).
  split.
  - apply (Hok [Some Examples.login; Some Examples.logout]).
    repeat constructor.
    + exists Examples.login. split; [reflexivity | discriminate].
    + exists Examples.logout. split; [reflexivity | discriminate].
  - apply Hbad. right. left. now left.
Defined.

Lemma handleEvents_loop_set_queue (now : nat -> Z) (events : list Event) :
  forall i l,
  exists q,
    snd (Server.handleEvents_loop now i events l) = Logger.set_queue q l.
Proof.
  induction events as [|e events IH]; intros i l; simpl.
  - exists (Logger.queue l). now rewrite set_queue_same.
  - destruct (String.eqb (Key e) EmptyString).
    + exists (Logger.queue l). simpl. now rewrite set_queue_same.
    + destruct (IH (S i)
                  (Logger.set_queue (Logger.queue l ++ [Logger.stamp (now i) e]) l))
        as [q Hq].
      exists q. now rewrite Hq.
Qed.

(** X18 - No premature visibility.  Emit and the two handlers only
    append to the logger's queue: they leave the store, the stop channel
    and the worker as they were, so every GetEvents call answers after
    them as it did before; queued events become visible through a drain
    only. *)
Theorem queued_events_not_visible (limit offset : Z) :
  (forall es l,
      DB.GetEvents (Logger.db (Logger.emit_all es l)) limit offset
      = DB.GetEvents (Logger.db l) limit offset) /\
  (forall now body l,
      exists q, snd (Server.handleEvents now body l) = Logger.set_queue q l) /\
  (forall now body l,
      exists q, snd (Server.handleBatch now body l) = Logger.set_queue q l) /\
  (forall now body l,
      DB.GetEvents (Logger.db (snd (Server.handleEvents now body l))) limit offset
      = DB.GetEvents (Logger.db l) limit offset) /\
  (forall now body l,
      DB.GetEvents (Logger.db (snd (Server.handleBatch now body l))) limit offset
      = DB.GetEvents (Logger.db l) limit offset).
Proof.
  assert (Hev : forall now body l,
             exists q, snd (Server.handleEvents now body l) = Logger.set_queue q l).
  { intros now [events|] l; simpl.
    - apply handleEvents_loop_set_queue.
    - exists (Logger.queue l). now rewrite set_queue_same. }
  assert (Hba : forall now body l,
             exists q, snd (Server.handleBatch now body l) = Logger.set_queue q l).
  { intros now [raw|] l; simpl.
    - destruct (Server.handleBatch_decode raw []) as [events|].
      + rewrite handleBatch_emit_all. simpl. now eexists.
      + exists (Logger.queue l). now rewrite set_queue_same.
    - exists (Logger.queue l). now rewrite set_queue_same. }
  split; [|split; [exact Hev | split; [exact Hba | split]]].
  - intros es l. now rewrite emit_all_queue.
  - intros now body l. destruct (Hev now body l) as [q ->]. reflexivity.
  - intros now body l. destruct (Hba now body l) as [q ->]. reflexivity.
Qed.

(** ** handleView *)

Lemma wrap_in_range (z : Z) : GoInt.in_range z -> GoInt.wrap z = z.
Proof.
  unfold GoInt.in_range, GoInt.min_int, GoInt.max_int, GoInt.wrap.
  change (2 ^ 63)%Z with 9223372036854775808%Z.
  change (2 ^ 64)%Z with 18446744073709551616%Z.
  intros H. rewrite Z.mod_small by lia. lia.
Qed.

Lemma GetEvents_beyond (db : DB.t) (limit offset : Z) :
  (Z.of_nat (List.length (DB.rows db)) <= offset)%Z ->
  DB.GetEvents db limit offset
  = ([], Z.of_nat (List.length (DB.rows db)), None).
Proof.
  intros Ho. unfold DB.GetEvents, DB.sql_limit_offset.
  rewrite skipn_all2 by (rewrite order_by_length; lia).
  destruct (limit <? 0)%Z; [reflexivity|]. now rewrite firstn_nil.
Qed.

Lemma GetEvents_negative_offset (db : DB.t) (limit offset : Z) :
  (offset < 0)%Z ->
  DB.GetEvents db limit offset = DB.GetEvents db limit 0.
Proof.
  intros Ho. unfold DB.GetEvents, DB.sql_limit_offset.
  now replace (Z.max 0 offset) with (Z.max 0 0) by lia.
Qed.

Lemma GetEvents_page_bound (db : DB.t) (limit offset : Z)
  (events : list Event) (total : Z) :
  DB.GetEvents db limit offset = (events, total, None) ->
  (0 <= limit)%Z ->
  (Z.of_nat (List.length events) <= limit)%Z.
Proof.
  unfold DB.GetEvents, DB.sql_limit_offset. intros H Hl.
  destruct (limit <? 0)%Z eqn:Hc; [apply Z.ltb_lt in Hc; lia|].
  destruct (mapM DB.scan _) as [es|] eqn:Hm; inversion H; subst.
  apply mapM_length in Hm. rewrite Hm, length_firstn. lia.
Qed.

Lemma handleView_inv (page_q page_size_q : option Z) (l : Logger.t)
  (status : Z) (resp : Server.ViewResponse) :
  Server.handleView page_q page_size_q l = (status, Some resp) ->
  status = Server.StatusOK /\
  Server.Page resp = match page_q with Some n => Z.max 1 n | None => 1%Z end /\
  (1 <= Server.PageSize resp <= 1000)%Z /\
  DB.GetEvents (Logger.db l) (Server.PageSize resp)
    (GoInt.mul (GoInt.sub (Server.Page resp) 1) (Server.PageSize resp))
  = (Server.Events resp, Server.Total resp, None) /\
  Server.TotalPages resp
  = GoInt.div (GoInt.sub (GoInt.add (Server.Total resp) (Server.PageSize resp)) 1)
      (Server.PageSize resp).
Proof.
  unfold Server.handleView.
  set (page := match page_q with
               | Some n => if (n <? 1)%Z then 1%Z else n
               | None => 1%Z
               end).
  set (pageSize := match page_size_q with
                   | Some n => if ((n <? 1)%Z || (1000 <? n)%Z)%bool
                               then 10%Z else n
                   | None => 10%Z
                   end).
  destruct (DB.GetEvents (Logger.db l) pageSize _) as [[events total] [e|]] eqn:Hget;
    intros H; inversion H; subst; clear H. simpl.
  split; [reflexivity|]. split; [|split; [|split; [exact Hget | reflexivity]]].
  - unfold page. destruct page_q as [n|]; [|reflexivity].
    destruct (n <? 1)%Z eqn:Hc;
      [apply Z.ltb_lt in Hc | apply Z.ltb_ge in Hc]; lia.
  - unfold pageSize. destruct page_size_q as [n|]; [|lia].
    destruct (n <? 1)%Z eqn:H1; simpl; [lia|].
    destruct (1000 <? n)%Z eqn:H2; [lia|].
    apply Z.ltb_ge in H1, H2. lia.
Qed.

(** X19 - What handleView answers.  A response with a body has status
    200; its page is the requested one (1 when the parameter is missing,
    not a number or below 1), its page size lies between 1 and 1000, its
    total is the full row count and it holds at most page-size events.
    Unless the arithmetic overflows, the events are those of
    [GetEvents(pageSize, (page-1)*pageSize)], the number of pages is
    [ceil(total / pageSize)], and a page beyond the last one is empty. *)
Theorem handleView_response (page_q page_size_q : option Z) (l : Logger.t)
  (status : Z) (resp : Server.ViewResponse) :
  Server.handleView page_q page_size_q l = (status, Some resp) ->
  let T := Z.of_nat (List.length (DB.rows (Logger.db l))) in
  let page := Server.Page resp in
  let pageSize := Server.PageSize resp in
  status = Server.StatusOK /\
  Server.Total resp = T /\
  page = match page_q with Some n => Z.max 1 n | None => 1%Z end /\
  (1 <= pageSize <= 1000)%Z /\
  (Z.of_nat (List.length (Server.Events resp)) <= pageSize)%Z /\
  ((T + 1000 <= GoInt.max_int)%Z ->
   (T <= Server.TotalPages resp * pageSize < T + pageSize)%Z) /\
  ((page <= GoInt.max_int)%Z -> ((page - 1) * pageSize <= GoInt.max_int)%Z ->
   DB.GetEvents (Logger.db l) pageSize ((page - 1) * pageSize)
   = (Server.Events resp, T, None) /\
   ((T + 1000 <= GoInt.max_int)%Z -> (Server.TotalPages resp < page)%Z ->
    Server.Events resp = [])).
Proof.
  intros H T page pageSize.
  destruct (handleView_inv _ _ _ H) as (Hst & Hpage & Hsize & Hget & Htp).
  fold page pageSize in Hpage, Hsize, Hget, Htp.
  pose proof (GetEvents_total _ _ _ Hget) as Htotal. fold T in Htotal.
  assert (Hpage1 : (1 <= page)%Z)
    by (rewrite Hpage; destruct page_q; lia).
  assert (HT0 : (0 <= T)%Z) by (unfold T; lia).
  assert (Hceil : (T + 1000 <= GoInt.max_int)%Z ->
                  Server.TotalPages resp = ((T + pageSize - 1) / pageSize)%Z).
  { intros Hsmall. rewrite Htp, Htotal.
    unfold GoInt.div, GoInt.sub, GoInt.add.
    unfold GoInt.max_int in Hsmall.
    rewrite (@wrap_in_range (T + pageSize)%Z)
      by (unfold GoInt.in_range, GoInt.min_int, GoInt.max_int; lia).
    rewrite (@wrap_in_range (T + pageSize - 1)%Z)
      by (unfold GoInt.in_range, GoInt.min_int, GoInt.max_int; lia).
    rewrite Z.quot_div_nonneg by lia.
    apply wrap_in_range.
    unfold GoInt.in_range, GoInt.min_int, GoInt.max_int.
    assert (0 <= (T + pageSize - 1) / pageSize)%Z
      by (apply Z.div_pos; lia).
    assert ((T + pageSize - 1) / pageSize <= T + pageSize - 1)%Z
      by (apply Z.div_le_upper_bound; nia).
    lia. }
  assert (Hbounds : (T + 1000 <= GoInt.max_int)%Z ->
            (T <= Server.TotalPages resp * pageSize < T + pageSize)%Z).
  { intros Hsmall. rewrite (Hceil Hsmall).
    pose proof (Z.div_mod (T + pageSize - 1) pageSize ltac:(lia)) as Hd.
    pose proof (Z.mod_pos_bound (T + pageSize - 1) pageSize ltac:(lia)) as Hm.
    nia. }
  split; [exact Hst|]. split; [exact Htotal|]. split; [exact Hpage|].
  split; [exact Hsize|].
  split; [eapply GetEvents_page_bound; [exact Hget | lia]|].
  split; [exact Hbounds|].
  intros Hpmax Hno.
  assert (Hoff : GoInt.mul (GoInt.sub page 1) pageSize = ((page - 1) * pageSize)%Z).
  { unfold GoInt.mul, GoInt.sub. unfold GoInt.max_int in *.
    rewrite (@wrap_in_range (page - 1)%Z)
      by (unfold GoInt.in_range, GoInt.min_int, GoInt.max_int; lia).
    apply wrap_in_range.
    unfold GoInt.in_range, GoInt.min_int, GoInt.max_int. nia. }
  rewrite Hoff, Htotal in Hget.
  split; [exact Hget|].
  intros Hsmall Hlast.
  specialize (Hbounds Hsmall).
  rewrite GetEvents_beyond in Hget by (fold T; nia).
  now inversion Hget.
Qed.

Lemma handleView_response_witness :
  exists resp,
    Server.handleView (Some 2%Z) (Some 1%Z) (Logger.NewLogger Examples.two_rows)
    = (Server.StatusOK, Some resp) /\
    Server.Events resp = [Logger.stamp 10 Examples.login] /\
    (2 <= Server.TotalPages resp * 1 < 2 + 1)%Z.
Proof.
  eexists. split; [reflexivity|].
  destruct (@handleView_response (Some 2%Z) (Some 1%Z)
              (Logger.NewLogger Examples.two_rows) _ _ eq_refl)
    as (_ & _ & _ & _ & _ & Hpages & _).
  split; [reflexivity|].
  apply Hpages. vm_compute. discriminate.
Defined.

(** X20 - A page number whose offset overflows.  The offset
    [(page-1)*pageSize] is computed in 64 bits; when it wraps around to a
    negative number the store takes it for offset 0, so the response
    shows the newest events, those of page 1, under the requested page
    number. *)
Theorem handleView_offset_overflow (page_q page_size_q : option Z)
  (l : Logger.t) (status : Z) (resp : Server.ViewResponse) :
  Server.handleView page_q page_size_q l = (status, Some resp) ->
  (Server.Page resp <= GoInt.max_int)%Z ->
  (GoInt.wrap ((Server.Page resp - 1) * Server.PageSize resp) < 0)%Z ->
  DB.GetEvents (Logger.db l) (Server.PageSize resp) 0
  = (Server.Events resp, Server.Total resp, None).
Proof.
  intros H Hpmax Hneg.
  destruct (handleView_inv _ _ _ H) as (_ & Hpage & _ & Hget & _).
  assert (Hpage1 : (1 <= Server.Page resp)%Z)
    by (rewrite Hpage; destruct page_q; lia).
  unfold GoInt.mul, GoInt.sub in Hget.
  rewrite (@wrap_in_range (Server.Page resp - 1)%Z) in Hget
    by (unfold GoInt.in_range, GoInt.min_int, GoInt.max_int in *; lia).
  now rewrite GetEvents_negative_offset in Hget by exact Hneg.
Qed.

Lemma handleView_offset_overflow_witness :
  exists resp,
    Server.handleView (Some 9223372036854777%Z) (Some 1000%Z)
      (Logger.NewLogger Examples.two_rows)
    = (Server.StatusOK, Some resp) /\
    Server.Page resp = 9223372036854777%Z /\
    DB.GetEvents Examples.two_rows 1000 0
    = (Server.Events resp, Server.Total resp, None).
Proof.
  destruct (Server.handleView (Some 9223372036854777%Z) (Some 1000%Z)
              (Logger.NewLogger Examples.two_rows)) as [st [resp|]] eqn:H.
  - pose proof (handleView_offset_overflow _ _ _ H) as Hov.
    vm_compute in H. inversion H; subst st resp; clear H.
    eexists. split; [reflexivity|]. split; [reflexivity|].
    apply Hov.
    + vm_compute. discriminate.
    + vm_compute. reflexivity.
  - vm_compute in H. discriminate.
Defined.

Lemma MarshalEvents_ShouldBindJSON (events : list Event) (b : Client.body) :
  Client.MarshalEvents events = Some b ->
  Server.ShouldBindJSON b = Some events.
Proof.
  unfold Client.MarshalEvents, Server.ShouldBindJSON. intros H.
  apply mapM_Forall2 in H. apply mapM_Forall2.
  induction H as [|e w events b He _ IH]; constructor; [|exact IH].
  destruct (Json.Marshal (Data e)) as [d|] eqn:Hm; [|discriminate].
  simpl in He. inversion He; subst.
  rewrite (Marshal_Unmarshal _ Hm). simpl. now destruct e.
Qed.

(** X21 - One keyless event spoils a client batch.  Let the client's
    queue hold an event without a key, all events before it having one,
    and let the server at the other end answer with handleEvents.  Then
    the server answers 400 after queueing the events that precede the
    keyless one, and the client's flush records a status error 400 and
    empties its queue: the keyless event and the events after it are
    never delivered, and nothing is sent again. *)
Theorem keyless_event_spoils_client_batch (now : nat -> Z) (c : Client.t)
  (l : Logger.t) (pre post : list Event) (bad : Event) (b : Client.body) :
  Client.queue c = pre ++ bad :: post ->
  Forall (fun e => Key e <> EmptyString) pre ->
  Key bad = EmptyString ->
  Client.MarshalEvents (Client.queue c) = Some b ->
  Client.post c b
  = Some (fst (Server.handleEvents now (Server.ShouldBindJSON b) l)) ->
  Client.flush c
  = ([Client.SendEventsCall (Client.queue c)
        (Some (StatusError Server.StatusBadRequest))],
     Client.set_queue [] c) /\
  snd (Server.handleEvents now (Server.ShouldBindJSON b) l)
  = Logger.set_queue (Logger.queue l ++ Server.queued now 0 pre) l.
Proof.
  intros Hq Hpre Hbad Hm Hpost.
  rewrite (MarshalEvents_ShouldBindJSON _ Hm) in *.
  assert (Hsrv : Server.handleEvents now (Some (Client.queue c)) l
                 = (Server.StatusBadRequest,
                    Logger.set_queue (Logger.queue l ++ Server.queued now 0 pre) l)).
  { rewrite Hq. simpl.
    rewrite (@handleEvents_loop_accepts now pre (bad :: post) 0 l Hpre).
    simpl. now rewrite Hbad. }
  rewrite Hsrv in *. simpl in Hpost. split; [|reflexivity].
  rewrite client_flush_nonempty by (rewrite Hq; now destruct pre).
  unfold Client.sendEvents. simpl. now rewrite Hm, Hpost.
Qed.

Lemma keyless_event_spoils_client_batch_witness :
  let server := Logger.NewLogger DB.Init in
  let c :=
    Client.set_queue [Examples.login; Examples.keyless; Examples.logout]
      (Client.newHTTPClient
         (fun b => Some (fst (Server.handleEvents Examples.clock
                                (Server.ShouldBindJSON b) server)))) in
  fst (Client.flush c)
  = [Client.SendEventsCall
       [Examples.login; Examples.keyless; Examples.logout]
       (Some (StatusError 400))].
Proof.
  intros server c.
  destruct (Client.MarshalEvents (Client.queue c)) as [b|] eqn:Hm;
    [|vm_compute in Hm; discriminate].
  destruct (@keyless_event_spoils_client_batch Examples.clock c server
              [Examples.login] [Examples.logout] Examples.keyless b)
    as [Hflush _].
  - reflexivity.
  - repeat constructor; discriminate.
  - reflexivity.
  - exact Hm.
  - reflexivity.
  - now rewrite Hflush.
Defined.

(* ================================================================== *)
(** * The middleware and its shared maps *)

Lemma lookup_assign_same (k : string) (v : Json.value)
  (m : list (string * Json.value)) :
  Middleware.lookup k (Middleware.assign k v m) = Some v.
Proof.
  induction m as [|[k' v'] m IH]; simpl.
  - now rewrite String.eqb_refl.
  - destruct (String.eqb k' k) eqn:Hk; simpl.
    + now rewrite String.eqb_refl.
    + now rewrite Hk.
Qed.

Lemma lookup_assign_other (k k0 : string) (v : Json.value)
  (m : list (string * Json.value)) :
  k <> k0 ->
  Middleware.lookup k0 (Middleware.assign k v m) = Middleware.lookup k0 m.
Proof.
  intros Hne. induction m as [|[k' v'] m IH]; simpl.
  - apply String.eqb_neq in Hne. now rewrite Hne.
  - destruct (String.eqb k' k) eqn:Hk; simpl.
    + apply String.eqb_eq in Hk. subst k'.
      apply String.eqb_neq in Hne. now rewrite Hne.
    + now rewrite IH.
Qed.

Lemma nth_error_store_same (a : nat) (k : string) (v : Json.value)
  (h : Middleware.heap) :
  nth_error (Middleware.store a k v h) a
  = option_map (Middleware.assign k v) (nth_error h a).
Proof.
  revert a; induction h as [|m h IH]; intros [|a]; simpl; auto.
Qed.

Lemma store_app_last (k : string) (v : Json.value) (h : Middleware.heap)
  (m : list (string * Json.value)) :
  Middleware.store (List.length h) k v (h ++ [m])
  = h ++ [Middleware.assign k v m].
Proof.
  induction h as [|m0 h IH]; simpl; [reflexivity|]. now rewrite IH.
Qed.

Lemma nth_error_app_last {A : Type} (h : list A) (m : A) :
  nth_error (h ++ [m]) (List.length h) = Some m.
Proof.
  induction h as [|x h IH]; simpl; [reflexivity | exact IH].
Qed.

(** X22 - TrackEvent with a map shares it between all its events.  When
    the route was set up with a (non-nil) data map, every request
    writes its path, client address and duration into that one map and
    queues an event that refers to it.  After two requests both queued
    events therefore show the same data, and it is that of the second
    request: what the first request recorded is overwritten before any
    flush reads it.  The entries under other keys stay as they were. *)
Theorem TrackEvent_shares_its_map (key : string) (a : nat)
  (r1 r2 : Middleware.Request) (w : Middleware.World)
  (m0 : list (string * Json.value)) :
  nth_error (Middleware.maps w) a = Some m0 ->
  let w2 := Middleware.TrackEvent key (Some a) r2
              (Middleware.TrackEvent key (Some a) r1 w) in
  exists e1 e2 m,
    Middleware.queue w2 = Middleware.queue w ++ [e1; e2] /\
    Data (Middleware.deref (Middleware.maps w2) e1) = Some m /\
    Data (Middleware.deref (Middleware.maps w2) e2) = Some m /\
    Middleware.lookup "request_path" m = Some (Json.Str (Middleware.path r2)) /\
    Middleware.lookup "client_ip" m = Some (Json.Str (Middleware.client_ip r2)) /\
    Middleware.lookup "duration_ms" m
    = Some (Json.Number (Middleware.duration_ms r2)) /\
    (forall k, k <> "request_path"%string -> k <> "client_ip"%string ->
               k <> "duration_ms"%string ->
               Middleware.lookup k m = Middleware.lookup k m0).
Proof.
  intros Hm0 w2.
  set (M :=
      Middleware.assign "duration_ms" (Json.Number (Middleware.duration_ms r2))
      (Middleware.assign "client_ip" (Json.Str (Middleware.client_ip r2))
      (Middleware.assign "request_path" (Json.Str (Middleware.path r2))
      (Middleware.assign "duration_ms" (Json.Number (Middleware.duration_ms r1))
      (Middleware.assign "client_ip" (Json.Str (Middleware.client_ip r1))
      (Middleware.assign "request_path" (Json.Str (Middleware.path r1))
         m0)))))).
  assert (Hh : nth_error (Middleware.maps w2) a = Some M).
  { unfold w2, Middleware.TrackEvent, Middleware.Emit. simpl.
    rewrite !nth_error_store_same, Hm0. reflexivity. }
  assert (Hq : exists e1 e2,
             Middleware.queue w2 = Middleware.queue w ++ [e1; e2] /\
             Middleware.RData e1 = Some a /\ Middleware.RData e2 = Some a).
  { unfold w2, Middleware.TrackEvent, Middleware.Emit. simpl.
    eexists. eexists. split; [rewrite <- app_assoc; reflexivity|].
    split; match goal with |- context [IsZero ?t] => destruct (IsZero t) end;
      reflexivity. }
  destruct Hq as (e1 & e2 & Hq & H1 & H2).
  exists e1, e2, M.
  split; [exact Hq|].
  split; [unfold Middleware.deref; simpl; rewrite H1; exact Hh|].
  split; [unfold Middleware.deref; simpl; rewrite H2; exact Hh|].
  unfold M. split; [|split; [|split]].
  - rewrite !(@lookup_assign_other _ "request_path") by discriminate.
    apply lookup_assign_same.
  - rewrite (@lookup_assign_other _ "client_ip") by discriminate.
    apply lookup_assign_same.
  - apply lookup_assign_same.
  - intros k Hk1 Hk2 Hk3.
    rewrite !lookup_assign_other by congruence. reflexivity.
Qed.

Lemma TrackEvent_shares_its_map_witness :
  map Data
    (Middleware.snapshot
       (Middleware.TrackEvent "api_access" (Some 0%nat) Examples.request_b
          (Middleware.TrackEvent "api_access" (Some 0%nat) Examples.request_a
             Examples.route_world)))
  = let m := Some [("endpoint"%string, Json.Str "users");
                   ("action"%string, Json.Str "list");
                   ("request_path"%string, Json.Str "/api/users");
                   ("client_ip"%string, Json.Str "10.0.0.2");
                   ("duration_ms"%string, Json.Number 9)] in
    [m; m].
Proof.
  pose proof (@TrackEvent_shares_its_map "api_access" 0 Examples.request_a
                Examples.request_b Examples.route_world _ eq_refl) as H.
  cbv zeta in H.
  set (W2 := Middleware.TrackEvent "api_access" (Some 0%nat) Examples.request_b _)
    in *.
  destruct H as (e1 & e2 & m & Hq & H1 & H2 & _).
  unfold Middleware.snapshot. rewrite Hq.
  change (Middleware.queue Examples.route_world ++ [e1; e2]) with [e1; e2].
  cbn [map]. rewrite H1, H2.
  vm_compute in Hq. inversion Hq; subst e1 e2.
  vm_compute in H1. inversion H1. reflexivity.
Defined.

(** X23 - TrackEvent without a map makes one per request.  When the
    route was set up with a nil data map, every request gets a new map
    holding its own path, client address and duration: after two
    requests the first event still shows the data of the first request
    and the second event that of the second. *)
Theorem TrackEvent_without_map_is_fresh (key : string)
  (r1 r2 : Middleware.Request) (w : Middleware.World) :
  let w2 := Middleware.TrackEvent key None r2
              (Middleware.TrackEvent key None r1 w) in
  exists e1 e2,
    Middleware.queue w2 = Middleware.queue w ++ [e1; e2] /\
    Data (Middleware.deref (Middleware.maps w2) e1)
    = Some [("request_path"%string, Json.Str (Middleware.path r1));
            ("client_ip"%string, Json.Str (Middleware.client_ip r1));
            ("duration_ms"%string, Json.Number (Middleware.duration_ms r1))] /\
    Data (Middleware.deref (Middleware.maps w2) e2)
    = Some [("request_path"%string, Json.Str (Middleware.path r2));
            ("client_ip"%string, Json.Str (Middleware.client_ip r2));
            ("duration_ms"%string, Json.Number (Middleware.duration_ms r2))].
Proof.
  intros w2.
  set (m1 := [("request_path"%string, Json.Str (Middleware.path r1));
              ("client_ip"%string, Json.Str (Middleware.client_ip r1));
              ("duration_ms"%string, Json.Number (Middleware.duration_ms r1))]).
  set (m2 := [("request_path"%string, Json.Str (Middleware.path r2));
              ("client_ip"%string, Json.Str (Middleware.client_ip r2));
              ("duration_ms"%string, Json.Number (Middleware.duration_ms r2))]).
  set (w1 := Middleware.TrackEvent key None r1 w).
  assert (Hmaps1 : Middleware.maps w1 = Middleware.maps w ++ [m1]).
  { unfold w1, Middleware.TrackEvent, Middleware.Emit.
    cbn [Middleware.maps Middleware.queue].
    now rewrite !store_app_last. }
  assert (Hmaps2 : Middleware.maps w2 = (Middleware.maps w ++ [m1]) ++ [m2]).
  { unfold w2. fold w1. unfold Middleware.TrackEvent at 1. unfold Middleware.Emit.
    cbn [Middleware.maps Middleware.queue].
    rewrite Hmaps1. now rewrite !store_app_last. }
  assert (Hq : exists e1 e2,
             Middleware.queue w2 = Middleware.queue w ++ [e1; e2] /\
             Middleware.RData e1 = Some (List.length (Middleware.maps w)) /\
             Middleware.RData e2 = Some (List.length (Middleware.maps w ++ [m1]))).
  { unfold w2. fold w1. unfold Middleware.TrackEvent at 1. unfold Middleware.Emit.
    cbn [Middleware.maps Middleware.queue]. rewrite Hmaps1.
    unfold w1, Middleware.TrackEvent, Middleware.Emit.
    cbn [Middleware.maps Middleware.queue].
    eexists. eexists. split; [rewrite <- app_assoc; reflexivity|].
    split; match goal with |- context [IsZero ?t] => destruct (IsZero t) end;
      reflexivity. }
  destruct Hq as (e1 & e2 & Hq & H1 & H2).
  exists e1, e2. split; [exact Hq|].
  unfold Middleware.deref. cbn [Data]. rewrite H1, H2, Hmaps2. split.
  - rewrite nth_error_app1 by (rewrite length_app; simpl; lia).
    apply nth_error_app_last.
  - apply nth_error_app_last.
Qed.

